(** * once_per_worker: a process-scoped, at-most-once lazy holder

    Shallow embedding of [once_per_worker/once_per_worker.py].

    A worker process is a record [Process]: the heap of [OncePerWorker]
    objects (object identity is the heap address), the class attributes
    [_instances] and [_instances_lock], the globals a factory may touch, and a
    ghost log of the factory invocations.  Methods are computations in a
    small state-and-exception monad, written statement by statement after
    the source.  Sequential clients are lists of calls run from a fresh
    process; concurrent callers of [_get_value] are threads that run the same
    statements one at a time over the shared [Process], under any schedule.
    A thread that runs alone ends where the method ends
    ([solo_thread_agrees]). *)

From Stdlib Require Import String List Lia HexString.
From stdpp Require Import gmap strings list fin_maps.

Open Scope string_scope.

(** ** The slice of the Python runtime the module relies on *)

(** Python values: [None], or an object given by its class name, its [repr]
    text and its attribute table in the order [dir] lists it. *)
#[warnings="-register-all"]
Inductive pyval : Type :=
| PyNone : pyval
| PyObj (cls : string) (repr : string) (attrs : list (string * pyval)) : pyval.

(** [v is None] *)
Definition is_none (v : pyval) : bool :=
  match v with PyNone => true | PyObj _ _ _ => false end.

Inductive pyexc : Type :=
| AttributeError (msg : string)
| AssertionError
| UserError (msg : string).

(** What a call of a Python callable ends in. *)
Inductive outcome : Type :=
| Returns (v : pyval)
| Raises (e : pyexc).

(** [dir(None)] as CPython 3.8 to 3.10 prints it. *)
Definition NoneType_dir : list string :=
  [ "__bool__"; "__class__"; "__delattr__"; "__dir__"; "__doc__"; "__eq__";
    "__format__"; "__ge__"; "__getattribute__"; "__gt__"; "__hash__";
    "__init__"; "__init_subclass__"; "__le__"; "__lt__"; "__ne__"; "__new__";
    "__reduce__"; "__reduce_ex__"; "__repr__"; "__setattr__"; "__sizeof__";
    "__str__"; "__subclasshook__" ].

Definition py_class (v : pyval) : string :=
  match v with PyNone => "NoneType" | PyObj cls _ _ => cls end.

(** The attribute table of a value; the slots of [None] are opaque builtins. *)
Definition py_attrs (v : pyval) : list (string * pyval) :=
  match v with
  | PyNone => map (fun n => (n, PyObj "builtin" ("<" ++ n ++ " of NoneType>") [])) NoneType_dir
  | PyObj _ _ attrs => attrs
  end.

(** [dir(v)] *)
Definition py_dir (v : pyval) : list string := map fst (py_attrs v).

Fixpoint assoc (a : string) (l : list (string * pyval)) : option pyval :=
  match l with
  | [] => None
  | (k, x) :: l' => if String.eqb k a then Some x else assoc a l'
  end.

(** [getattr(v, a)] *)
Definition py_getattr (v : pyval) (a : string) : outcome :=
  match assoc a (py_attrs v) with
  | Some x => Returns x
  | None =>
      Raises (AttributeError
                ("'" ++ py_class v ++ "' object has no attribute '" ++ a ++ "'"))
  end.

(** [repr(v)] *)
Definition py_repr (v : pyval) : string :=
  match v with PyNone => "None" | PyObj _ r _ => r end.

(** Truthiness of a [str]: only the empty string is falsy. *)
Definition str_truthy (s : string) : bool :=
  match s with EmptyString => false | String _ _ => true end.

(** ** Results and the method monad *)

(** A method returns, raises, blocks for ever on a lock that is held, or is
    called on an address that names no object. *)
Inductive Res (A : Type) : Type :=
| Ok (a : A)
| Exc (e : pyexc)
| Blocked
| Dangling.
Arguments Ok {A} a.
Arguments Exc {A} e.
Arguments Blocked {A}.
Arguments Dangling {A}.

(** Heap addresses stand for object identity ([id(self)]). *)
Abbreviation addr := nat (only parsing).

(** One factory invocation in the ghost log: the handle whose [_func] was
    called, whether [_instances_lock] was held at that moment, and how the
    call ended. *)
Record call_event : Type := mkCall {
  ev_self : addr;
  ev_instances_locked : bool;
  ev_outcome : outcome
}.

(** The invocation gave a value that fills the slot: it returned, and not
    [None]. *)
Definition ev_success (ev : call_event) : bool :=
  match ev_outcome ev with
  | Returns v => negb (is_none v)
  | Raises _ => false
  end.

Section OncePerWorker.

(** The globals of the process that a factory can read and write. *)
Context {U : Type}.

(** [Callable[[], T]]: a zero-argument callable that runs on the globals and
    returns or raises.  Factories that re-enter the handle are outside the
    model. *)
Definition Factory : Type := U -> outcome * U.

(** [dask.base.tokenize], the deterministic hash oracle. *)
Variable tokenize : Factory -> string.

(** An instance of the class [OncePerWorker]. [_lock] is [true] while the
    [threading.Lock] is held; [_value] is [PyNone] while the slot is empty. *)
Record OncePerWorker : Type := mkOncePerWorker {
  _func : Factory;
  _token : string;
  _lock : bool;
  _value : pyval
}.

Record Process : Type := mkProcess {
  heap : list OncePerWorker;
  _instances : gmap string addr;
  _instances_lock : bool;
  globals : U;
  calls : list call_event
}.

Definition M (A : Type) : Type := Process -> Res A * Process.

Definition ret {A} (a : A) : M A := fun p => (Ok a, p).

Definition bind {A B} (m : M A) (k : A -> M B) : M B :=
  fun p =>
    match m p with
    | (Ok a, p') => k a p'
    | (Exc e, p') => (Exc e, p')
    | (Blocked, p') => (Blocked, p')
    | (Dangling, p') => (Dangling, p')
    end.

Definition raise {A} (e : pyexc) : M A := fun p => (Exc e, p).

(** [try: m finally: cleanup]; nothing runs after a computation that never
    comes back. *)
Definition finally {A} (m : M A) (cleanup : M unit) : M A :=
  fun p =>
    match m p with
    | (Ok a, p') =>
        match cleanup p' with
        | (Ok _, p'') => (Ok a, p'')
        | (Exc e, p'') => (Exc e, p'')
        | (Blocked, p'') => (Blocked, p'')
        | (Dangling, p'') => (Dangling, p'')
        end
    | (Exc e, p') =>
        match cleanup p' with
        | (Ok _, p'') => (Exc e, p'')
        | (Exc e', p'') => (Exc e', p'')
        | (Blocked, p'') => (Blocked, p'')
        | (Dangling, p'') => (Dangling, p'')
        end
    | (Blocked, p') => (Blocked, p')
    | (Dangling, p') => (Dangling, p')
    end.

Notation "x <- m ;; k" := (bind m (fun x => k))
  (at level 100, m at next level, right associativity).
Notation "m ;;; k" := (bind m (fun _ => k))
  (at level 100, right associativity).

(** *** Field access on heap objects *)

Definition set_heap (hp : list OncePerWorker) (p : Process) : Process :=
  mkProcess hp (_instances p) (_instances_lock p) (globals p) (calls p).

Definition load (self : addr) : M OncePerWorker :=
  fun p =>
    match heap p !! self with
    | Some h => (Ok h, p)
    | None => (Dangling, p)
    end.

Definition store (self : addr) (h : OncePerWorker) : M unit :=
  fun p => (Ok tt, set_heap (<[self := h]> (heap p)) p).

Definition set_value (v : pyval) (h : OncePerWorker) : OncePerWorker :=
  mkOncePerWorker (_func h) (_token h) (_lock h) v.

Definition set_lock (b : bool) (h : OncePerWorker) : OncePerWorker :=
  mkOncePerWorker (_func h) (_token h) b (_value h).

(** [self._value] *)
Definition read_value (self : addr) : M pyval :=
  h <- load self ;; ret (_value h).

(** [self._value = v] *)
Definition write_value (self : addr) (v : pyval) : M unit :=
  h <- load self ;; store self (set_value v h).

(** [self._lock.acquire()]: a [threading.Lock] is not reentrant. *)
Definition acquire (self : addr) : M unit :=
  h <- load self ;;
  if _lock h then (fun p => (Blocked, p)) else store self (set_lock true h).

(** [self._lock.release()] *)
Definition release (self : addr) : M unit :=
  h <- load self ;; store self (set_lock false h).

(** [with self._lock: body] *)
Definition with_lock {A} (self : addr) (body : M A) : M A :=
  acquire self ;;; finally body (release self).

Definition set_instances_lock (b : bool) (p : Process) : Process :=
  mkProcess (heap p) (_instances p) b (globals p) (calls p).

Definition acquire_instances_lock : M unit :=
  fun p =>
    if _instances_lock p then (Blocked, p)
    else (Ok tt, set_instances_lock true p).

Definition release_instances_lock : M unit :=
  fun p => (Ok tt, set_instances_lock false p).

(** [with cls._instances_lock: body] *)
Definition with_instances_lock {A} (body : M A) : M A :=
  acquire_instances_lock ;;; finally body release_instances_lock.

(** The process after one run of the factory of [self] that ended in [r] and
    left the globals as [g]. *)
Definition log_call (self : addr) (r : outcome) (g : U) (p : Process) : Process :=
  mkProcess (heap p) (_instances p) (_instances_lock p) g
    (calls p ++ [mkCall self (_instances_lock p) r]).

(** [self._func()]: runs the factory on the globals and logs the invocation. *)
Definition call_func (self : addr) : M pyval :=
  h <- load self ;;
  fun p =>
    let '(r, g) := _func h (globals p) in
    match r with
    | Returns v => (Ok v, log_call self r g p)
    | Raises e => (Exc e, log_call self r g p)
    end.

(** ** The class [OncePerWorker] *)

(** [cls(func, token)]: allocates the object and runs [__init__] on it. *)
Definition __init__ (func : Factory) (token : string) : M addr :=
  fun p =>
    (Ok (length (heap p)),
     set_heap (heap p ++ [mkOncePerWorker func token false PyNone]) p).

(** [token or dask.base.tokenize(func)] *)
Definition resolve_token (func : Factory) (token : option string) : string :=
  match token with
  | Some t => if str_truthy t then t else tokenize func
  | None => tokenize func
  end.

Definition set_instance (token_ : string) (a : addr) : M unit :=
  fun p =>
    (Ok tt,
     mkProcess (heap p) (<[token_ := a]> (_instances p)) (_instances_lock p)
       (globals p) (calls p)).

Definition instance_for_function (func : Factory) (token : option string)
  : M addr :=
  let token_ := resolve_token func token in
  with_instances_lock
    (fun p =>
       match _instances p !! token_ with
       | Some instance => ret instance p
       | None =>
           (instance <- __init__ func token_ ;;
            set_instance token_ instance ;;;
            ret instance) p
       end).

(** The pickled form: the reconstructor and its arguments. *)
Inductive reconstructor : Type := InstanceForFunction.

Record reduced : Type := mkReduced {
  red_callable : reconstructor;
  red_args : Factory * string
}.

Definition __reduce__ (self : addr) : M reduced :=
  h <- load self ;;
  ret (mkReduced InstanceForFunction (_func h, _token h)).

(** What [pickle.loads] does with a reduced form. *)
Definition unpickle (r : reduced) : M addr :=
  match red_callable r with
  | InstanceForFunction =>
      instance_for_function (fst (red_args r)) (Some (snd (red_args r)))
  end.

(** [pickle.loads(pickle.dumps(self))] inside one process. *)
Definition pickle_roundtrip (self : addr) : M addr :=
  r <- __reduce__ self ;; unpickle r.

Definition _get_value (self : addr) : M pyval :=
  v <- read_value self ;;
  if negb (is_none v) then ret v
  else
    with_lock self
      (v1 <- read_value self ;;
       (if is_none v1
        then r <- call_func self ;; write_value self r
        else ret tt) ;;;
       v2 <- read_value self ;;
       (if is_none v2 then raise AssertionError else ret tt) ;;;
       read_value self).

Definition reserved_names : list string :=
  [ "__dask_graph__"; "__name__"; "__dask_tokenize__" ].

Definition lift_outcome (o : outcome) : M pyval :=
  match o with
  | Returns v => ret v
  | Raises e => raise e
  end.

Definition __getattr__ (self : addr) (attr : string) : M pyval :=
  if bool_decide (attr ∈ reserved_names) then raise (AttributeError attr)
  else v <- _get_value self ;; lift_outcome (py_getattr v attr).

Definition __dir__ (self : addr) : M (list string) :=
  v <- read_value self ;; ret (py_dir v).

(** [f"<{type(self).__name__} at {hex(id(self))} of {self._value!r}>"] *)
Definition __repr__ (self : addr) : M string :=
  v <- read_value self ;;
  ret ("<OncePerWorker at " ++ HexString.of_nat self ++ " of " ++ py_repr v ++ ">").

(** A process right after the module is imported. *)
Definition fresh_process (g : U) : Process :=
  mkProcess [] ∅ false g [].

(** *** Sequential histories of a process *)

(** The calls a client can make, one after the other. The docstring rules
    out constructing handles with [__init__] directly. *)
Inductive call : Type :=
| Call_instance_for_function (func : Factory) (token : option string)
| Call_get_value (self : addr)
| Call_getattr (self : addr) (attr : string)
| Call_dir (self : addr)
| Call_repr (self : addr)
| Call_reduce (self : addr)
| Call_unpickle (r : reduced).

Definition exec (c : call) (p : Process) : Process :=
  match c with
  | Call_instance_for_function func token => snd (instance_for_function func token p)
  | Call_get_value self => snd (_get_value self p)
  | Call_getattr self attr => snd (__getattr__ self attr p)
  | Call_dir self => snd (__dir__ self p)
  | Call_repr self => snd (__repr__ self p)
  | Call_reduce self => snd (__reduce__ self p)
  | Call_unpickle r => snd (unpickle r p)
  end.

Fixpoint exec_all (cs : list call) (p : Process) : Process :=
  match cs with
  | [] => p
  | c :: cs' => exec_all cs' (exec c p)
  end.

(** The invocations of the factory of handle [a], oldest first. *)
Definition calls_of (a : addr) (p : Process) : list call_event :=
  filter (fun ev => ev_self ev = a) (calls p).

Definition invocations (a : addr) (p : Process) : nat := length (calls_of a p).

(** No logged invocation of the factory of [a] raised or returned [None]. *)
Definition all_successful (a : addr) (p : Process) : bool :=
  forallb ev_success (calls_of a p).

(** The process after a new, empty handle for [func] is registered under
    [token_]. *)
Definition register (token_ : string) (func : Factory) (p : Process) : Process :=
  mkProcess (heap p ++ [mkOncePerWorker func token_ false PyNone])
    (<[token_ := length (heap p)]> (_instances p))
    (_instances_lock p) (globals p) (calls p).

(** *** Invariants of sequential histories *)

(** Between two calls every lock is free, the registry and the heap name the
    same handles, each under its own token, and a handle's token is the one
    its pickled form resolves to. *)
Record registry_inv (p : Process) : Prop := mkRegistryInv {
  inv_instances_lock : _instances_lock p = false;
  inv_locks : forall a h, heap p !! a = Some h -> _lock h = false;
  inv_registered :
    forall a h, heap p !! a = Some h -> _instances p !! _token h = Some a;
  inv_entries :
    forall k a, _instances p !! k = Some a ->
                exists h, heap p !! a = Some h /\ _token h = k;
  inv_token :
    forall a h, heap p !! a = Some h ->
                resolve_token (_func h) (Some (_token h)) = _token h
}.

Definition all_failed (l : list call_event) : bool :=
  forallb (fun ev => negb (ev_success ev)) l.

(** The log of a handle is a run of failed invocations, followed by the one
    invocation that filled the slot when the slot is populated. *)
Definition handle_log_inv (a : addr) (p : Process) : Prop :=
  match heap p !! a with
  | Some h =>
      if is_none (_value h) then all_failed (calls_of a p) = true
      else exists pre b,
             calls_of a p = (pre ++ [mkCall a b (Returns (_value h))])%list
             /\ all_failed pre = true
  | None => calls_of a p = []
  end.

Record log_inv (p : Process) : Prop := mkLogInv {
  inv_unlocked_calls :
    forall ev, ev ∈ calls p -> ev_instances_locked ev = false;
  inv_handle_log : forall a, handle_log_inv a p
}.

(** ** Concurrent callers of [_get_value]

    Threads of one process call [_get_value] on the same handle. A thread is
    the statement it is about to run; one step runs one statement of one
    thread on the shared [Process], so every interleaving of the statements
    is a run. The factory runs in one step: the other threads only run
    [_get_value], and nothing else writes the globals. *)

Inductive pc : Type :=
| AtFastCheck                  (* [if self._value is not None:] *)
| AtAcquire                    (* [with self._lock:], entering *)
| AtRecheck                    (* [if self._value is None:] *)
| AtCall                       (* [self._func()] *)
| AtStore (r : pyval)          (* [self._value = r] *)
| AtAssert                     (* [assert self._value is not None] *)
| AtReturn                     (* [return self._value], reading the slot *)
| AtRelease (o : outcome)      (* [with self._lock:], leaving *)
| Done (o : outcome).          (* back in the caller *)

(** Runs one statement: where the thread goes when it returns and when it
    raises. A statement that blocks takes no step. *)
Definition run_stmt {A} (m : M A) (next : A -> pc) (handler : pyexc -> pc)
    (p : Process) : option (pc * Process) :=
  match m p with
  | (Ok x, p') => Some (next x, p')
  | (Exc e, p') => Some (handler e, p')
  | (Blocked, _) => None
  | (Dangling, _) => None
  end.

(** An exception outside the [with] block reaches the caller; inside, the
    block is left first. *)
Definition propagate (e : pyexc) : pc := Done (Raises e).
Definition unwind (e : pyexc) : pc := AtRelease (Raises e).

Definition thread_step (self : addr) (t : pc) : Process -> option (pc * Process) :=
  match t with
  | AtFastCheck =>
      run_stmt (read_value self)
        (fun v => if negb (is_none v) then Done (Returns v) else AtAcquire)
        propagate
  | AtAcquire => run_stmt (acquire self) (fun _ => AtRecheck) propagate
  | AtRecheck =>
      run_stmt (read_value self)
        (fun v => if is_none v then AtCall else AtAssert) unwind
  | AtCall => run_stmt (call_func self) AtStore unwind
  | AtStore r => run_stmt (write_value self r) (fun _ => AtAssert) unwind
  | AtAssert =>
      run_stmt
        (v <- read_value self ;;
         if is_none v then raise AssertionError else ret tt)
        (fun _ => AtReturn) unwind
  | AtReturn =>
      run_stmt (read_value self) (fun v => AtRelease (Returns v)) unwind
  | AtRelease o => run_stmt (release self) (fun _ => Done o) propagate
  | Done _ => fun _ => None
  end.

(** A configuration: the threads and the process they share. *)
Definition config : Type := list pc * Process.

(** The scheduler lets thread [i] run one statement; there is no step when
    there is no such thread, when it has returned, or when it waits for the
    lock. *)
Definition sched_step (self : addr) (i : nat) (c : config) : option config :=
  match fst c !! i with
  | Some t =>
      match thread_step self t (snd c) with
      | Some (t', p') => Some (<[i := t']> (fst c), p')
      | None => None
      end
  | None => None
  end.

(** A run under a schedule, the list of the threads that move. *)
Fixpoint run (self : addr) (sched : list nat) (c : config) : option config :=
  match sched with
  | [] => Some c
  | i :: sched' =>
      match sched_step self i c with
      | Some c' => run self sched' c'
      | None => None
      end
  end.

(** [n] threads that have just called [_get_value]. *)
Definition spawn (n : nat) (p : Process) : config := (replicate n AtFastCheck, p).

Definition is_done (t : pc) : bool :=
  match t with Done _ => true | _ => false end.

(** The thread is inside the [with self._lock] block. *)
Definition holds_lock (t : pc) : bool :=
  match t with
  | AtRecheck | AtCall | AtStore _ | AtAssert | AtReturn | AtRelease _ => true
  | AtFastCheck | AtAcquire | Done _ => false
  end.

(** The statements a thread has left to run, at most. *)
Definition weight (t : pc) : nat :=
  match t with
  | AtFastCheck => 8
  | AtAcquire => 7
  | AtRecheck => 6
  | AtCall => 5
  | AtStore _ => 4
  | AtAssert => 3
  | AtReturn => 2
  | AtRelease _ => 1
  | Done _ => 0
  end.

Definition measure (c : config) : nat := sum_list (weight <$> fst c).

(** *** Invariants of the runs *)

(** Mutual exclusion: the lock is held exactly when one thread is inside the
    block, and no two threads are. *)
Definition mutex_inv (self : addr) (c : config) : Prop :=
  exists h, heap (snd c) !! self = Some h /\
    if _lock h
    then exists i t,
           fst c !! i = Some t /\ holds_lock t = true
           /\ forall j tj, fst c !! j = Some tj -> holds_lock tj = true -> j = i
    else forall j tj, fst c !! j = Some tj -> holds_lock tj = false.

(** Before the factory has run. *)
Definition before_call (t : pc) : bool :=
  match t with
  | AtFastCheck | AtAcquire | AtRecheck | AtCall => true
  | _ => false
  end.

(** While the result [v] of the factory waits to be stored. *)
Definition while_storing (v : pyval) (t : pc) : Prop :=
  t = AtFastCheck \/ t = AtAcquire \/ t = AtStore v.

(** Once the slot holds [v]. *)
Definition after_store (v : pyval) (t : pc) : Prop :=
  t = AtFastCheck \/ t = AtAcquire \/ t = AtRecheck \/ t = AtAssert
  \/ t = AtReturn \/ t = AtRelease (Returns v) \/ t = Done (Returns v).

(** The three phases of a run that starts with [n0] logged invocations of
    the factory [func] of [self] and globals [g0], when the factory turns
    [g0] into [g1] and returns [v]. *)
Inductive phase (self : addr) (func : Factory) (n0 : nat) (g0 g1 : U) (v : pyval)
  : config -> Prop :=
| phase_before ts p h :
    heap p !! self = Some h -> _func h = func -> _value h = PyNone ->
    globals p = g0 -> invocations self p = n0 ->
    Forall (fun t => before_call t = true) ts ->
    phase self func n0 g0 g1 v (ts, p)
| phase_storing ts p h :
    heap p !! self = Some h -> _func h = func -> _value h = PyNone ->
    _lock h = true ->
    globals p = g1 -> invocations self p = S n0 ->
    Forall (while_storing v) ts ->
    phase self func n0 g0 g1 v (ts, p)
| phase_stored ts p h :
    heap p !! self = Some h -> _func h = func -> _value h = v ->
    globals p = g1 -> invocations self p = S n0 ->
    Forall (after_store v) ts ->
    phase self func n0 g0 g1 v (ts, p).

(** *** Callers of a factory that raises *)

(** The thread has had its invocation of the factory. *)
Definition has_raised (t : pc) : nat :=
  match t with
  | AtRelease _ | Done _ => 1
  | _ => 0
  end.

(** Where a thread can be while every invocation raises. *)
Definition raising_ok (t : pc) : Prop :=
  match t with
  | AtFastCheck | AtAcquire | AtRecheck | AtCall => True
  | AtRelease (Raises _) | Done (Raises _) => True
  | _ => False
  end.

(** The slot stays empty, and the log grows by one invocation for each
    thread that has got its exception. *)
Definition raising_inv (self : addr) (func : Factory) (n0 : nat) (c : config)
  : Prop :=
  exists h,
    heap (snd c) !! self = Some h /\ _func h = func /\ _value h = PyNone
    /\ Forall raising_ok (fst c)
    /\ invocations self (snd c) = n0 + sum_list (has_raised <$> fst c).

(** ** Concurrent callers of [instance_for_function]

    Threads of one process call [instance_for_function], each with its own
    arguments. The token is resolved before the lock is taken and is local
    to the thread; after that a thread is the statement it is about to run
    inside [with cls._instances_lock]. None of these statements raises: the
    [KeyError] of the lookup is caught on the spot. *)

Inductive ipc : Type :=
| IAtAcquire                     (* [with cls._instances_lock:], entering *)
| IAtLookup                      (* [try: return cls._instances[token_]] *)
| IAtCreate                      (* [cls(func, token_)] *)
| IAtInsert (instance : addr)    (* [cls._instances[token_] = instance] *)
| IAtRelease (instance : addr)   (* [return instance], leaving the block *)
| IDone (instance : addr).       (* back in the caller *)

Record caller : Type := mkCaller {
  c_func : Factory;
  c_token_ : string;
  c_pc : ipc
}.

Definition set_pc (t : ipc) (th : caller) : caller :=
  mkCaller (c_func th) (c_token_ th) t.

(** Runs one statement; a statement that blocks takes no step. *)
Definition istmt {A} (m : M A) (next : A -> ipc) (p : Process)
  : option (ipc * Process) :=
  match m p with
  | (Ok x, p') => Some (next x, p')
  | _ => None
  end.

(** [cls._instances[token_]], with [None] for [KeyError]. *)
Definition lookup_instance (token_ : string) : M (option addr) :=
  fun p => (Ok (_instances p !! token_), p).

Definition caller_step (th : caller) : Process -> option (ipc * Process) :=
  match c_pc th with
  | IAtAcquire => istmt acquire_instances_lock (fun _ => IAtLookup)
  | IAtLookup =>
      istmt (lookup_instance (c_token_ th))
        (fun r => match r with
                  | Some instance => IAtRelease instance
                  | None => IAtCreate
                  end)
  | IAtCreate => istmt (__init__ (c_func th) (c_token_ th)) IAtInsert
  | IAtInsert instance =>
      istmt (set_instance (c_token_ th) instance) (fun _ => IAtRelease instance)
  | IAtRelease instance =>
      istmt release_instances_lock (fun _ => IDone instance)
  | IDone _ => fun _ => None
  end.

Definition iconfig : Type := list caller * Process.

Definition isched_step (i : nat) (c : iconfig) : option iconfig :=
  match fst c !! i with
  | Some th =>
      match caller_step th (snd c) with
      | Some (t', p') => Some (<[i := set_pc t' th]> (fst c), p')
      | None => None
      end
  | None => None
  end.

Fixpoint irun (sched : list nat) (c : iconfig) : option iconfig :=
  match sched with
  | [] => Some c
  | i :: sched' =>
      match isched_step i c with
      | Some c' => irun sched' c'
      | None => None
      end
  end.

(** One thread for each pair of arguments, its token resolved. *)
Definition ispawn (args : list (Factory * option string)) (p : Process)
  : iconfig :=
  ((fun arg => mkCaller (fst arg) (resolve_token (fst arg) (snd arg)) IAtAcquire)
     <$> args, p).

Definition iis_done (th : caller) : bool :=
  match c_pc th with IDone _ => true | _ => false end.

(** The thread is inside the [with cls._instances_lock] block. *)
Definition iholds (t : ipc) : bool :=
  match t with
  | IAtLookup | IAtCreate | IAtInsert _ | IAtRelease _ => true
  | IAtAcquire | IDone _ => false
  end.

Definition iweight (t : ipc) : nat :=
  match t with
  | IAtAcquire => 5
  | IAtLookup => 4
  | IAtCreate => 3
  | IAtInsert _ => 2
  | IAtRelease _ => 1
  | IDone _ => 0
  end.

Definition imeasure (c : iconfig) : nat :=
  sum_list ((fun th => iweight (c_pc th)) <$> fst c).

(** Mutual exclusion on the registry lock. *)
Definition imutex_inv (c : iconfig) : Prop :=
  if _instances_lock (snd c)
  then exists i th,
         fst c !! i = Some th /\ iholds (c_pc th) = true
         /\ forall j thj,
              fst c !! j = Some thj -> iholds (c_pc thj) = true -> j = i
  else forall j thj, fst c !! j = Some thj -> iholds (c_pc thj) = false.

(** What a thread knows about the registry at each statement. *)
Definition caller_ok (p : Process) (th : caller) : Prop :=
  resolve_token (c_func th) (Some (c_token_ th)) = c_token_ th
  /\ match c_pc th with
     | IAtAcquire | IAtLookup => True
     | IAtCreate => _instances p !! c_token_ th = None
     | IAtInsert a =>
         _instances p !! c_token_ th = None
         /\ heap p !! a = Some (mkOncePerWorker (c_func th) (c_token_ th) false PyNone)
     | IAtRelease a | IDone a => _instances p !! c_token_ th = Some a
     end.

(** The registry invariant while callers are at work: a handle is
    registered under its token, or it is the one the thread inside the block
    has just created and is about to register. *)
Record ireg_inv (c : iconfig) : Prop := mkIRegInv {
  ir_locks : forall a h, heap (snd c) !! a = Some h -> _lock h = false;
  ir_entries :
    forall k a, _instances (snd c) !! k = Some a ->
                exists h, heap (snd c) !! a = Some h /\ _token h = k;
  ir_handles :
    forall a h, heap (snd c) !! a = Some h ->
      resolve_token (_func h) (Some (_token h)) = _token h
      /\ (_instances (snd c) !! _token h = Some a
          \/ (_instances (snd c) !! _token h = None
              /\ exists i th, fst c !! i = Some th /\ c_pc th = IAtInsert a
                              /\ c_token_ th = _token h));
  ir_callers : forall i th, fst c !! i = Some th -> caller_ok (snd c) th
}.

(** What the callers leave alone: the log, the globals and the handles that
    were there before. *)
Definition iframe (p0 : Process) (c : iconfig) : Prop :=
  calls (snd c) = calls p0 /\ globals (snd c) = globals p0
  /\ forall a h, heap p0 !! a = Some h -> heap (snd c) !! a = Some h.

End OncePerWorker.

(** ** A concrete worker process

    The globals are one shared counter that every factory increments. *)

Definition model : pyval :=
  PyObj "Model" "<Model object>"
    [("predict", PyObj "method" "<bound method Model.predict>" [])].

(** [def load_model(): global counter; counter += 1; return Model()] *)
Definition load_model : @Factory nat := fun counter => (Returns model, S counter).

(** [def returns_none(): global counter; counter += 1] *)
Definition returns_none : @Factory nat := fun counter => (Returns PyNone, S counter).

(** Fails on its first invocation and succeeds from the second on. *)
Definition flaky : @Factory nat :=
  fun counter =>
    match counter with
    | 0 => (Raises (UserError "connection refused"), 1)
    | S _ => (Returns model, S counter)
    end.

(** Two factories that differ only in the model they build. *)
Definition load_other_model : @Factory nat :=
  fun counter => (Returns (PyObj "Model" "<Model object v2>" []), S counter).

(** A stand-in for [dask.base.tokenize]: 32 hexadecimal digits that depend
    on what the factory does on a fresh counter. *)
Definition example_tokenize (f : @Factory nat) : string :=
  match fst (f 0) with
  | Returns PyNone => "6adf97f83acf6453d4a6a4b1070f3754"
  | Returns (PyObj _ _ _) => "d41d8cd98f00b204e9800998ecf8427e"
  | Raises _ => "0cc175b9c0f1b6a831c399e269772661"
  end.

(** A handle for [load_model] in a fresh process. *)
Definition example_process : @Process nat :=
  exec_all example_tokenize [Call_instance_for_function load_model None]
    (fresh_process 0).

(** A client that resolves the value, uses it, prints the handle and sends
    it through pickle. *)
Definition example_history : list (@call nat) :=
  [ Call_instance_for_function load_model None;
    Call_getattr 0 "__dask_graph__";
    Call_get_value 0;
    Call_getattr 0 "predict";
    Call_repr 0;
    Call_reduce 0;
    Call_unpickle (mkReduced InstanceForFunction
                     (load_model, "d41d8cd98f00b204e9800998ecf8427e"));
    Call_get_value 0 ].

(** Three threads: all three miss the fast path, the second wins the lock
    and runs the factory, the other two find the slot populated. *)
Definition example_schedule : list nat :=
  [0; 1; 2; 1; 1; 1; 1; 1; 1; 1; 0; 0; 0; 0; 0; 2; 2; 2; 2; 2].

(** A factory that raises whenever it is invoked. *)
Definition always_fails : @Factory nat :=
  fun counter => (Raises (UserError "no such file"), S counter).

(** The handle of [example_process] once its value is resolved. *)
Definition example_resolved : @Process nat := snd (_get_value 0 example_process).

(** [example_process] at the moment a thread has entered the [with] block:
    the lock is held and the slot is still empty. *)
Definition example_locked : @Process nat :=
  match run 0 [0; 0] (spawn 1 example_process) with
  | Some c => snd c
  | None => example_process
  end.

(** A handle for [always_fails] in a fresh process, and two threads that
    take turns on it. *)
Definition failing_process : @Process nat :=
  exec_all example_tokenize [Call_instance_for_function always_fails None]
    (fresh_process 0).

Definition failing_schedule : list nat := [0; 1; 0; 0; 0; 0; 1; 1; 1; 1].

(** Three callers of [instance_for_function], two of them with the same
    explicit token and different factories; the second one wins the lock. *)
Definition example_args : list (@Factory nat * option string) :=
  [(load_model, Some "model"); (load_other_model, Some "model"); (flaky, None)].

Definition registry_schedule : list nat :=
  [1; 1; 1; 1; 1; 0; 0; 0; 2; 2; 2; 2; 2].

(** Raises on its first invocation and returns [None] from the second on:
    [def f(): global counter; counter += 1; if counter == 1: raise ...]. *)
Definition fails_then_none : @Factory nat :=
  fun counter =>
    match counter with
    | 0 => (Raises (UserError "connection refused"), 1)
    | S _ => (Returns PyNone, S counter)
    end.

(** A handle for [returns_none] in a fresh process, and two threads that
    call [_get_value] on it: both miss the fast path, then each runs the
    slow path to its end. *)
Definition none_process : @Process nat :=
  exec_all example_tokenize [Call_instance_for_function returns_none None]
    (fresh_process 0).

Definition none_schedule : list nat :=
  [0; 1; 0; 0; 0; 0; 0; 0; 1; 1; 1; 1; 1; 1].

(** * Properties *)

Section Sequential.

Context {U : Type} (tokenize : @Factory U -> string).

Implicit Types (p : @Process U) (h : @OncePerWorker U) (a self : addr).

Lemma set_lock_release h :
  _lock h = false -> set_lock false (set_lock true h) = h.
Proof. destruct h; simpl; by intros ->. Qed.

Lemma set_lock_release_value h v :
  _lock h = false ->
  set_lock false (set_value v (set_lock true h)) = set_value v h.
Proof. destruct h; simpl; by intros ->. Qed.

Lemma is_none_true (v : pyval) : is_none v = true -> v = PyNone.
Proof. by destruct v. Qed.

(** Equations of the monad, by the result of the first computation. *)
Lemma bind_Ok {A B} (m : M A) (k : A -> M B) p (x : A) p' :
  m p = (Ok x, p') -> bind m k p = k x p'.
Proof. unfold bind. by intros ->. Qed.

Lemma bind_Exc {A B} (m : M A) (k : A -> M B) p e p' :
  m p = (Exc e, p') -> bind m k p = (Exc e, p').
Proof. unfold bind. by intros ->. Qed.

Lemma finally_Ok {A} (m : M A) (c : M unit) p (x : A) p' u p'' :
  m p = (Ok x, p') -> c p' = (Ok u, p'') -> finally m c p = (Ok x, p'').
Proof. unfold finally. by intros -> ->. Qed.

Lemma finally_Exc {A} (m : M A) (c : M unit) p e p' u p'' :
  m p = (Exc e, p') -> c p' = (Ok u, p'') -> finally m c p = (Exc e, p'').
Proof. unfold finally. by intros -> ->. Qed.

Lemma load_Some p a h : heap p !! a = Some h -> load a p = (Ok h, p).
Proof. unfold load. by intros ->. Qed.

Lemma load_None {A} (k : OncePerWorker -> M A) p a :
  heap p !! a = None -> bind (load a) k p = (Dangling, p).
Proof. unfold bind, load. by intros ->. Qed.

Lemma read_value_Some p a h :
  heap p !! a = Some h -> read_value a p = (Ok (_value h), p).
Proof. intros Ha. unfold read_value. by rewrite (bind_Ok _ _ _ _ _ (load_Some _ _ _ Ha)). Qed.

Lemma write_value_Some p a h v :
  heap p !! a = Some h ->
  write_value a v p = (Ok tt, set_heap (<[a := set_value v h]> (heap p)) p).
Proof. intros Ha. unfold write_value. by rewrite (bind_Ok _ _ _ _ _ (load_Some _ _ _ Ha)). Qed.

Lemma acquire_free p a h :
  heap p !! a = Some h -> _lock h = false ->
  acquire a p = (Ok tt, set_heap (<[a := set_lock true h]> (heap p)) p).
Proof.
  intros Ha Hl. unfold acquire.
  rewrite (bind_Ok _ _ _ _ _ (load_Some _ _ _ Ha)). by rewrite Hl.
Qed.

Lemma acquire_held p a h :
  heap p !! a = Some h -> _lock h = true -> acquire a p = (Blocked, p).
Proof.
  intros Ha Hl. unfold acquire.
  rewrite (bind_Ok _ _ _ _ _ (load_Some _ _ _ Ha)). by rewrite Hl.
Qed.

Lemma release_Some p a h :
  heap p !! a = Some h ->
  release a p = (Ok tt, set_heap (<[a := set_lock false h]> (heap p)) p).
Proof. intros Ha. unfold release. by rewrite (bind_Ok _ _ _ _ _ (load_Some _ _ _ Ha)). Qed.

Lemma call_func_Some p a h :
  heap p !! a = Some h ->
  call_func a p =
    match _func h (globals p) with
    | (Returns v, g) => (Ok v, log_call a (Returns v) g p)
    | (Raises e, g) => (Exc e, log_call a (Raises e) g p)
    end.
Proof.
  intros Ha. unfold call_func. rewrite (bind_Ok _ _ _ _ _ (load_Some _ _ _ Ha)).
  by destruct (_func h (globals p)) as [[v|e] g].
Qed.

Lemma heap_insert_lookup p a h h' :
  heap p !! a = Some h -> <[a := h']> (heap p) !! a = Some h'.
Proof. intros Ha. apply list_lookup_insert_eq. by eapply lookup_lt_Some. Qed.

(** The fast path of [_get_value]: a populated slot is returned as it is. *)
Lemma get_value_populated p a h :
  heap p !! a = Some h -> is_none (_value h) = false ->
  _get_value a p = (Ok (_value h), p).
Proof.
  intros Ha Hv.
  cbv beta iota delta [_get_value bind read_value load ret].
  by rewrite Ha, Hv.
Qed.

(** The slow path of [_get_value] on a free lock. *)
Lemma get_value_empty p a h :
  heap p !! a = Some h -> _lock h = false -> is_none (_value h) = true ->
  _get_value a p =
    match _func h (globals p) with
    | (Returns v, g) =>
        if is_none v
        then (Exc AssertionError, log_call a (Returns v) g p)
        else (Ok v, set_heap (<[a := set_value v h]> (heap p))
                      (log_call a (Returns v) g p))
    | (Raises e, g) => (Exc e, log_call a (Raises e) g p)
    end.
Proof.
  intros Ha Hl Hv. unfold _get_value.
  rewrite (bind_Ok _ _ _ _ _ (read_value_Some _ _ _ Ha)), Hv. cbn [negb].
  unfold with_lock. rewrite (bind_Ok _ _ _ _ _ (acquire_free _ _ _ Ha Hl)).
  set (p1 := set_heap (<[a:=set_lock true h]> (heap p)) p).
  assert (H1 : heap p1 !! a = Some (set_lock true h)) by (by eapply heap_insert_lookup).
  destruct (_func h (globals p)) as [[v|e] g] eqn:Hf.
  - assert (Hcall : call_func a p1 = (Ok v, log_call a (Returns v) g p1)).
    { rewrite (call_func_Some _ _ _ H1). simpl. by rewrite Hf. }
    set (p2 := log_call a (Returns v) g p1) in *.
    assert (H2 : heap p2 !! a = Some (set_lock true h)) by done.
    set (p3 := set_heap (<[a := set_value v (set_lock true h)]> (heap p2)) p2).
    assert (H3 : heap p3 !! a = Some (set_value v (set_lock true h)))
      by (by eapply heap_insert_lookup).
    destruct (is_none v) eqn:Hnv.
    + erewrite finally_Exc; [| | by apply (release_Some _ _ _ H3)].
      2:{ rewrite (bind_Ok _ _ _ _ _ (read_value_Some _ _ _ H1)).
          cbn [_value set_lock]. rewrite Hv.
          rewrite (bind_Ok _ _ _ tt p3).
          2:{ rewrite (bind_Ok _ _ _ _ _ Hcall). apply (write_value_Some _ _ _ _ H2). }
          rewrite (bind_Ok _ _ _ _ _ (read_value_Some _ _ _ H3)).
          cbn [_value set_value]. rewrite Hnv. reflexivity. }
      f_equal. apply is_none_true in Hnv, Hv. subst v.
      unfold p3, p2, p1, set_heap, log_call; simpl.
      rewrite !list_insert_insert_eq, set_lock_release_value by done.
      rewrite list_insert_id; [done|]. rewrite Ha. f_equal.
      destruct h; simpl in *; by subst.
    + erewrite finally_Ok; [| | by apply (release_Some _ _ _ H3)].
      2:{ rewrite (bind_Ok _ _ _ _ _ (read_value_Some _ _ _ H1)).
          cbn [_value set_lock]. rewrite Hv.
          rewrite (bind_Ok _ _ _ tt p3).
          2:{ rewrite (bind_Ok _ _ _ _ _ Hcall). apply (write_value_Some _ _ _ _ H2). }
          rewrite (bind_Ok _ _ _ _ _ (read_value_Some _ _ _ H3)).
          cbn [_value set_value]. rewrite Hnv.
          rewrite (bind_Ok (ret tt) (fun _ => read_value a) p3 tt p3) by done.
          apply (read_value_Some _ _ _ H3). }
      f_equal. unfold p3, p2, p1, set_heap, log_call; simpl.
      by rewrite !list_insert_insert_eq, set_lock_release_value.
  - assert (Hcall : call_func a p1 = (Exc e, log_call a (Raises e) g p1)).
    { rewrite (call_func_Some _ _ _ H1). simpl. by rewrite Hf. }
    set (p2 := log_call a (Raises e) g p1) in *.
    assert (H2 : heap p2 !! a = Some (set_lock true h)) by done.
    erewrite finally_Exc; [| | by apply (release_Some _ _ _ H2)].
    2:{ rewrite (bind_Ok _ _ _ _ _ (read_value_Some _ _ _ H1)).
        cbn [_value set_lock]. rewrite Hv.
        apply bind_Exc. by apply bind_Exc. }
    f_equal. unfold p2, p1, set_heap, log_call; simpl.
    rewrite !list_insert_insert_eq, set_lock_release by done.
    by rewrite list_insert_id.
Qed.

Lemma get_value_dangling p a :
  heap p !! a = None -> _get_value a p = (Dangling, p).
Proof. intros Ha. unfold _get_value, read_value. unfold bind, load. by rewrite Ha. Qed.

Lemma get_value_held p a h :
  heap p !! a = Some h -> _lock h = true -> is_none (_value h) = true ->
  _get_value a p = (Blocked, p).
Proof.
  intros Ha Hl Hv. unfold _get_value.
  rewrite (bind_Ok _ _ _ _ _ (read_value_Some _ _ _ Ha)), Hv. cbn [negb].
  unfold with_lock, bind. by rewrite (acquire_held _ _ _ Ha Hl).
Qed.

(** [instance_for_function] on a free registry lock: the handle registered
    under the resolved token, or a new empty one. *)
Lemma instance_for_function_free p func token :
  _instances_lock p = false ->
  instance_for_function tokenize func token p =
    match _instances p !! resolve_token tokenize func token with
    | Some a => (Ok a, p)
    | None => (Ok (length (heap p)), register (resolve_token tokenize func token) func p)
    end.
Proof.
  intros Hl. unfold instance_for_function, with_instances_lock.
  set (k := resolve_token tokenize func token).
  assert (Hacq : acquire_instances_lock p = (Ok tt, set_instances_lock true p)).
  { unfold acquire_instances_lock. by rewrite Hl. }
  rewrite (bind_Ok _ _ _ _ _ Hacq). unfold finally. cbn [_instances set_instances_lock].
  destruct (_instances p !! k) as [a|] eqn:Hk.
  - unfold ret, release_instances_lock. f_equal. destruct p; simpl in *; by subst.
  - unfold bind, __init__, set_instance, ret, release_instances_lock, register.
    cbn. f_equal. destruct p; simpl in *; by subst.
Qed.

Lemma instance_for_function_held p func token :
  _instances_lock p = true ->
  instance_for_function tokenize func token p = (Blocked, p).
Proof.
  intros Hl. unfold instance_for_function, with_instances_lock, bind,
    acquire_instances_lock. by rewrite Hl.
Qed.

(** *** The state every call leaves behind *)

Lemma get_value_state p a :
  (forall h, heap p !! a = Some h -> _lock h = false) ->
  snd (_get_value a p) =
    match heap p !! a with
    | None => p
    | Some h =>
        if is_none (_value h)
        then match _func h (globals p) with
             | (Returns v, g) =>
                 if is_none v then log_call a (Returns v) g p
                 else set_heap (<[a := set_value v h]> (heap p))
                        (log_call a (Returns v) g p)
             | (Raises e, g) => log_call a (Raises e) g p
             end
        else p
    end.
Proof.
  intros Hl. destruct (heap p !! a) as [h|] eqn:Ha.
  - destruct (is_none (_value h)) eqn:Hv.
    + rewrite (get_value_empty _ _ _ Ha (Hl _ eq_refl) Hv).
      destruct (_func h (globals p)) as [[v|e] g]; [by destruct (is_none v)|done].
    + by rewrite (get_value_populated _ _ _ Ha Hv).
  - by rewrite get_value_dangling.
Qed.

Lemma getattr_state p a attr :
  snd (__getattr__ a attr p) =
    if bool_decide (attr ∈ reserved_names) then p else snd (_get_value a p).
Proof.
  unfold __getattr__. case_bool_decide; [done|].
  unfold bind. destruct (_get_value a p) as [[v|e| |] p']; try done.
  cbn [snd]. by destruct (py_getattr v attr).
Qed.

Lemma dir_state p a : snd (__dir__ a p) = p.
Proof.
  unfold __dir__, read_value, bind, load, ret. by destruct (heap p !! a).
Qed.

Lemma repr_state p a : snd (__repr__ a p) = p.
Proof.
  unfold __repr__, read_value, bind, load, ret. by destruct (heap p !! a).
Qed.

Lemma reduce_state p a : snd (__reduce__ a p) = p.
Proof.
  unfold __reduce__, bind, load, ret. by destruct (heap p !! a).
Qed.

Lemma instance_for_function_state p func token :
  _instances_lock p = false ->
  snd (instance_for_function tokenize func token p) =
    match _instances p !! resolve_token tokenize func token with
    | Some _ => p
    | None => register (resolve_token tokenize func token) func p
    end.
Proof.
  intros Hl. rewrite (instance_for_function_free _ _ _ Hl).
  by destruct (_instances p !! _).
Qed.

(** *** The registry invariant *)

Lemma resolve_token_idem func token :
  resolve_token tokenize func (Some (resolve_token tokenize func token)) =
  resolve_token tokenize func token.
Proof.
  unfold resolve_token. destruct token as [t|].
  - destruct (str_truthy t) eqn:Ht; [by rewrite Ht|].
    by destruct (str_truthy (tokenize func)).
  - by destruct (str_truthy (tokenize func)).
Qed.

Lemma registry_inv_fresh (g : U) : registry_inv tokenize (fresh_process g).
Proof. by split. Qed.

Lemma registry_inv_ext p p' :
  heap p' = heap p -> _instances p' = _instances p ->
  _instances_lock p' = _instances_lock p ->
  registry_inv tokenize p -> registry_inv tokenize p'.
Proof.
  intros Hh Hi Hl [I1 I2 I3 I4 I5].
  split; rewrite ?Hh, ?Hi, ?Hl; done.
Qed.

Lemma registry_inv_set_value p p' a h v :
  heap p !! a = Some h ->
  heap p' = <[a := set_value v h]> (heap p) ->
  _instances p' = _instances p ->
  _instances_lock p' = _instances_lock p ->
  registry_inv tokenize p -> registry_inv tokenize p'.
Proof.
  intros Ha Hh Hi Hl [I1 I2 I3 I4 I5].
  assert (Hold : forall b hb, heap p' !! b = Some hb ->
            exists hb', heap p !! b = Some hb' /\ _lock hb = _lock hb'
                        /\ _token hb = _token hb' /\ _func hb = _func hb').
  { intros b hb. rewrite Hh. intros [(-> & <- & _)|[_ Hb]]%list_lookup_insert_Some;
      eauto 6. }
  split; rewrite ?Hi, ?Hl; try done.
  - intros b hb (hb' & Hb & -> & _)%Hold. eauto.
  - intros b hb (hb' & Hb & _ & -> & _)%Hold. eauto.
  - intros k b (hb & Hb & Hk)%I4. rewrite Hh.
    destruct (decide (a = b)) as [->|Hne].
    + exists (set_value v h). rewrite list_lookup_insert_eq by (by eapply lookup_lt_Some).
      split; [done|]. rewrite Ha in Hb. by injection Hb as ->.
    + exists hb. by rewrite list_lookup_insert_ne.
  - intros b hb (hb' & Hb & _ & -> & ->)%Hold. eauto.
Qed.

Lemma registry_inv_register p func token :
  registry_inv tokenize p ->
  _instances p !! resolve_token tokenize func token = None ->
  registry_inv tokenize (register (resolve_token tokenize func token) func p).
Proof.
  intros [I1 I2 I3 I4 I5] Hk. set (k := resolve_token tokenize func token) in *.
  split; unfold register; cbn [heap _instances _instances_lock]; try done.
  - intros b hb [[_ Hb]|[_ <-]]%lookup_snoc_Some; eauto.
  - intros b hb [[_ Hb]|[-> <-]]%lookup_snoc_Some.
    + rewrite lookup_insert_ne; [eauto|]. intros Heq. apply I3 in Hb. congruence.
    + apply lookup_insert_eq.
  - intros k' b [[<- <-]|[Hne Hb]]%lookup_insert_Some.
    + exists (mkOncePerWorker func k false PyNone). split; [|done].
      apply lookup_snoc_Some. by right.
    + apply I4 in Hb as (hb & Hb & Htok). exists hb. split; [|done].
      by apply lookup_app_l_Some.
  - intros b hb [[_ Hb]|[_ <-]]%lookup_snoc_Some; [eauto|].
    apply resolve_token_idem.
Qed.

Lemma registry_inv_exec c p :
  registry_inv tokenize p -> registry_inv tokenize (exec tokenize c p).
Proof.
  intros Hinv.
  assert (Hget : forall a, registry_inv tokenize (snd (_get_value a p))).
  { intros a. rewrite get_value_state by (intros; by eapply inv_locks).
    destruct (heap p !! a) as [h|] eqn:Ha; [|done].
    destruct (is_none (_value h)); [|done].
    destruct (_func h (globals p)) as [[v|e] g].
    - destruct (is_none v).
      + by apply (registry_inv_ext p).
      + by apply (registry_inv_set_value p _ a h v).
    - by apply (registry_inv_ext p). }
  assert (Hifn : forall func token,
            registry_inv tokenize (snd (instance_for_function tokenize func token p))).
  { intros func token. rewrite instance_for_function_state by apply Hinv.
    destruct (_instances p !! _) eqn:Hk; [done|]. by apply registry_inv_register. }
  destruct c as [func token|a|a attr|a|a|a|r]; cbn [exec].
  - apply Hifn.
  - apply Hget.
  - rewrite getattr_state. by case_bool_decide.
  - by rewrite dir_state.
  - by rewrite repr_state.
  - by rewrite reduce_state.
  - unfold unpickle. destruct (red_callable r). apply Hifn.
Qed.

Lemma registry_inv_exec_all cs p :
  registry_inv tokenize p -> registry_inv tokenize (exec_all tokenize cs p).
Proof.
  revert p. induction cs as [|c cs IH]; intros p Hinv; [done|].
  cbn [exec_all]. by apply IH, registry_inv_exec.
Qed.

(** *** The log invariant *)

Lemma calls_of_log_call_same p a r g :
  calls_of a (log_call a r g p) =
  (calls_of a p ++ [mkCall a (_instances_lock p) r])%list.
Proof.
  unfold calls_of, log_call. cbn [calls]. rewrite filter_app.
  by rewrite filter_cons_True by done.
Qed.

Lemma calls_of_log_call_other p a b r g :
  b <> a -> calls_of b (log_call a r g p) = calls_of b p.
Proof.
  intros Hne. unfold calls_of, log_call. cbn [calls]. rewrite filter_app.
  rewrite filter_cons_False by (cbn; congruence).
  by rewrite filter_nil, app_nil_r.
Qed.

Lemma all_failed_app l1 l2 :
  all_failed (l1 ++ l2) = all_failed l1 && all_failed l2.
Proof. apply forallb_app. Qed.

Lemma log_inv_fresh (g : U) : log_inv (fresh_process g).
Proof.
  split.
  - intros ev Hev. by apply elem_of_nil in Hev.
  - intros a. unfold handle_log_inv. by cbn.
Qed.

(** Only [heap] and [calls] matter to the log of a handle. *)
Lemma handle_log_inv_ext p p' b :
  heap p' !! b = heap p !! b -> calls p' = calls p ->
  handle_log_inv b p -> handle_log_inv b p'.
Proof. unfold handle_log_inv, calls_of. by intros -> ->. Qed.

Lemma log_inv_register p k func :
  log_inv p -> log_inv (register k func p).
Proof.
  intros [L1 L2]. split; [done|]. intros b.
  specialize (L2 b). unfold handle_log_inv in *.
  change (calls_of b (register k func p)) with (calls_of b p).
  unfold register; cbn [heap]. rewrite lookup_app.
  destruct (heap p !! b) as [h|] eqn:Hb; [done|].
  rewrite L2. by destruct (b - length (heap p)) as [|[|n]].
Qed.

(** An invocation that fails leaves the slot empty and extends the run of
    failures. *)
Lemma log_inv_failed_call p a h r g :
  _instances_lock p = false ->
  heap p !! a = Some h -> is_none (_value h) = true ->
  ev_success (mkCall a false r) = false ->
  log_inv p -> log_inv (log_call a r g p).
Proof.
  intros Hl Ha Hv Hr [L1 L2]. split.
  - intros ev. unfold log_call; cbn [calls].
    intros [Hev|Hev%list_elem_of_singleton]%elem_of_app; [by apply L1|by subst].
  - intros b. destruct (decide (b = a)) as [->|Hne].
    + specialize (L2 a). unfold handle_log_inv in *.
      change (heap (log_call a r g p)) with (heap p).
      rewrite Ha, Hv in *. rewrite calls_of_log_call_same, all_failed_app, L2.
      cbn. by rewrite Hl, Hr.
    + specialize (L2 b). unfold handle_log_inv in *.
      change (heap (log_call a r g p)) with (heap p).
      by rewrite calls_of_log_call_other.
Qed.

(** The invocation that returns a value other than [None] fills the slot
    and closes the log of the handle. *)
Lemma log_inv_filling_call p a h v g :
  _instances_lock p = false ->
  heap p !! a = Some h -> is_none (_value h) = true -> is_none v = false ->
  log_inv p ->
  log_inv (set_heap (<[a := set_value v h]> (heap p)) (log_call a (Returns v) g p)).
Proof.
  intros Hl Ha Hv Hnv [L1 L2]. split.
  - intros ev. unfold log_call, set_heap; cbn [calls].
    intros [Hev|Hev%list_elem_of_singleton]%elem_of_app; [by apply L1|by subst].
  - intros b. destruct (decide (b = a)) as [->|Hne].
    + specialize (L2 a). unfold handle_log_inv in *.
      unfold set_heap at 1; cbn [heap].
      rewrite (heap_insert_lookup _ _ _ _ Ha). cbn [_value set_value].
      rewrite Ha, Hv in L2. rewrite Hnv.
      exists (calls_of a p), false. split; [|done].
      change (calls_of a (set_heap _ ?q)) with (calls_of a q).
      by rewrite calls_of_log_call_same, Hl.
    + specialize (L2 b). unfold handle_log_inv in *.
      unfold set_heap at 1; cbn [heap].
      rewrite list_lookup_insert_ne by done.
      change (calls_of b (set_heap _ ?q)) with (calls_of b q).
      by rewrite calls_of_log_call_other.
Qed.

Lemma log_inv_exec c p :
  registry_inv tokenize p -> log_inv p -> log_inv (exec tokenize c p).
Proof.
  intros Hreg Hlog.
  assert (Hget : forall a, log_inv (snd (_get_value a p))).
  { intros a. rewrite get_value_state by (intros; by eapply inv_locks).
    destruct (heap p !! a) as [h|] eqn:Ha; [|done].
    destruct (is_none (_value h)) eqn:Hv; [|done].
    destruct (_func h (globals p)) as [[v|e] g].
    - destruct (is_none v) eqn:Hnv.
      + apply (log_inv_failed_call p a h); try done; [apply Hreg|].
        unfold ev_success; cbn. by rewrite Hnv.
      + apply (log_inv_filling_call p a h); try done. apply Hreg.
    - apply (log_inv_failed_call p a h); try done. apply Hreg. }
  assert (Hifn : forall func token,
            log_inv (snd (instance_for_function tokenize func token p))).
  { intros func token. rewrite instance_for_function_state by apply Hreg.
    destruct (_instances p !! _) eqn:Hk; [done|]. by apply log_inv_register. }
  destruct c as [func token|a|a attr|a|a|a|r]; cbn [exec].
  - apply Hifn.
  - apply Hget.
  - rewrite getattr_state. by case_bool_decide.
  - by rewrite dir_state.
  - by rewrite repr_state.
  - by rewrite reduce_state.
  - unfold unpickle. destruct (red_callable r). apply Hifn.
Qed.

Lemma inv_exec_all cs p :
  registry_inv tokenize p -> log_inv p ->
  registry_inv tokenize (exec_all tokenize cs p) /\ log_inv (exec_all tokenize cs p).
Proof.
  revert p. induction cs as [|c cs IH]; intros p Hreg Hlog; [done|].
  cbn [exec_all]. apply IH; [by apply registry_inv_exec|by apply log_inv_exec].
Qed.

Lemma inv_history cs (g : U) :
  registry_inv tokenize (exec_all tokenize cs (fresh_process g))
  /\ log_inv (exec_all tokenize cs (fresh_process g)).
Proof. apply inv_exec_all; [apply registry_inv_fresh|apply log_inv_fresh]. Qed.

(** *** What a call can do to the heap and to the registry *)

Lemma exec_cases c p :
  registry_inv tokenize p ->
  exec tokenize c p = p
  \/ (exists a r g, exec tokenize c p = log_call a r g p)
  \/ (exists a h v g,
        heap p !! a = Some h
        /\ exec tokenize c p =
             set_heap (<[a := set_value v h]> (heap p)) (log_call a (Returns v) g p))
  \/ (exists k func,
        _instances p !! k = None /\ exec tokenize c p = register k func p).
Proof.
  intros Hinv.
  assert (Hget : forall a,
    snd (_get_value a p) = p
    \/ (exists a' r g, snd (_get_value a p) = log_call a' r g p)
    \/ (exists a' h v g,
          heap p !! a' = Some h
          /\ snd (_get_value a p) =
               set_heap (<[a' := set_value v h]> (heap p)) (log_call a' (Returns v) g p))
    \/ (exists k func,
          _instances p !! k = None /\ snd (_get_value a p) = register k func p)).
  { intros a. rewrite get_value_state by (intros; by eapply inv_locks).
    destruct (heap p !! a) as [h|] eqn:Ha; [|by left].
    destruct (is_none (_value h)); [|by left].
    destruct (_func h (globals p)) as [[v|e] g].
    - destruct (is_none v); [right; left; eauto|].
      right; right; left. by exists a, h, v, g.
    - right; left; eauto. }
  assert (Hifn : forall func token,
    snd (instance_for_function tokenize func token p) = p
    \/ (exists k func',
          _instances p !! k = None
          /\ snd (instance_for_function tokenize func token p) = register k func' p)).
  { intros func token. rewrite instance_for_function_state by apply Hinv.
    destruct (_instances p !! _) eqn:Hk; [by left|right; eauto]. }
  destruct c as [func token|a|a attr|a|a|a|r]; cbn [exec].
  - destruct (Hifn func token) as [->|?]; auto.
  - apply Hget.
  - rewrite getattr_state. case_bool_decide; [by left|apply Hget].
  - left. apply dir_state.
  - left. apply repr_state.
  - left. apply reduce_state.
  - unfold unpickle. destruct (red_callable r).
    destruct (Hifn (fst (red_args r)) (Some (snd (red_args r)))) as [->|?]; auto.
Qed.

(** A handle stays where it is, with the factory and the token it was
    created with. *)
Lemma exec_keeps_handle c p a h :
  registry_inv tokenize p -> heap p !! a = Some h ->
  exists h', heap (exec tokenize c p) !! a = Some h'
             /\ _func h' = _func h /\ _token h' = _token h.
Proof.
  intros Hinv Ha.
  destruct (exec_cases c p Hinv)
    as [->|[(a'&r&g&->)|[(a'&h0&v&g&Ha'&->)|(k&func&_&->)]]]; eauto.
  - unfold set_heap; cbn [heap log_call].
    destruct (decide (a' = a)) as [->|Hne].
    + rewrite (heap_insert_lookup _ _ _ _ Ha'). rewrite Ha in Ha'.
      injection Ha' as <-. eauto.
    + rewrite list_lookup_insert_ne by done. eauto.
  - unfold register; cbn [heap]. rewrite (lookup_app_l_Some _ _ _ _ Ha). eauto.
Qed.

(** A registry entry is never removed and never rebound. *)
Lemma exec_keeps_entry c p k a :
  registry_inv tokenize p -> _instances p !! k = Some a ->
  _instances (exec tokenize c p) !! k = Some a.
Proof.
  intros Hinv Hk.
  destruct (exec_cases c p Hinv)
    as [->|[(a'&r&g&->)|[(a'&h0&v&g&Ha'&->)|(k'&func&Hk'&->)]]]; try done.
  unfold register; cbn [_instances]. rewrite lookup_insert_ne; [done|congruence].
Qed.

Lemma exec_all_keeps cs p k a h :
  registry_inv tokenize p ->
  _instances p !! k = Some a -> heap p !! a = Some h ->
  _instances (exec_all tokenize cs p) !! k = Some a
  /\ exists h', heap (exec_all tokenize cs p) !! a = Some h'
                /\ _func h' = _func h /\ _token h' = _token h.
Proof.
  revert p h. induction cs as [|c cs IH]; intros p h Hinv Hk Ha; [eauto|].
  cbn [exec_all].
  destruct (exec_keeps_handle c p a h Hinv Ha) as (h1 & Ha1 & Hf1 & Ht1).
  destruct (IH (exec tokenize c p) h1) as (Hk2 & h2 & Ha2 & Hf2 & Ht2);
    [by apply registry_inv_exec|by apply exec_keeps_entry|done|].
  split; [done|]. exists h2. split; [done|]. split; congruence.
Qed.

(** *** Value resolution *)

(** C1 (amended): over every sequential history of a process, a handle whose
    factory never raised and never returned [None] has had its factory
    invoked at most once. *)
Theorem factory_runs_at_most_once cs (g : U) a :
  let p := exec_all tokenize cs (fresh_process g) in
  all_successful a p = true -> invocations a p <= 1.
Proof.
  intros p Hall. destruct (inv_history cs g) as [_ [_ Hlog]].
  specialize (Hlog a). fold p in Hlog. unfold handle_log_inv in Hlog.
  unfold invocations, all_successful in *.
  assert (Hnil : forall l, all_failed l = true -> forallb ev_success l = true -> l = []).
  { intros [|ev l]; [done|]. cbn. by destruct (ev_success ev). }
  destruct (heap p !! a) as [h|].
  - destruct (is_none (_value h)).
    + rewrite (Hnil _ Hlog Hall). cbn. lia.
    + destruct Hlog as (pre & b & Heq & Hpre). rewrite Heq in *.
      rewrite forallb_app in Hall. apply andb_true_iff in Hall as [Hall _].
      rewrite (Hnil _ Hpre Hall). cbn. lia.
  - rewrite Hlog. cbn. lia.
Qed.

(** C5 (amended): when the factory raises, the exception reaches the caller
    as it is, the lock is free again and the slot is still empty; the next
    call runs the factory again, and fills the slot if the factory then
    returns a value other than [None]. *)
Theorem get_value_retries_after_failure p a h e g :
  heap p !! a = Some h -> _lock h = false -> _value h = PyNone ->
  _func h (globals p) = (Raises e, g) ->
  let p' := snd (_get_value a p) in
  fst (_get_value a p) = Exc e
  /\ heap p' = heap p
  /\ globals p' = g
  /\ invocations a p' = S (invocations a p)
  /\ forall v g',
       _func h g = (Returns v, g') -> is_none v = false ->
       let p'' := snd (_get_value a p') in
       fst (_get_value a p') = Ok v
       /\ heap p'' !! a = Some (set_value v h)
       /\ invocations a p'' = S (S (invocations a p)).
Proof.
  intros Ha Hl Hv Hf p'.
  assert (Hn : is_none (_value h) = true) by (by rewrite Hv).
  assert (Hp' : _get_value a p = (Exc e, log_call a (Raises e) g p)).
  { by rewrite (get_value_empty _ _ _ Ha Hl Hn), Hf. }
  unfold p'. rewrite Hp'. cbn [fst snd].
  split; [done|]. split; [done|]. split; [done|]. split.
  { unfold invocations. rewrite calls_of_log_call_same, length_app. cbn. lia. }
  intros v g' Hf' Hnv. cbv zeta.
  assert (Ha' : heap (log_call a (Raises e) g p) !! a = Some h) by done.
  assert (Hp'' : _get_value a (log_call a (Raises e) g p) =
            (Ok v, set_heap (<[a := set_value v h]> (heap p))
                     (log_call a (Returns v) g' (log_call a (Raises e) g p)))).
  { rewrite (get_value_empty _ _ _ Ha' Hl Hn). cbn [globals log_call].
    by rewrite Hf', Hnv. }
  rewrite Hp''. cbn [fst snd].
  split; [done|]. split.
  - unfold set_heap; cbn [heap log_call]. by apply (heap_insert_lookup p a h).
  - unfold invocations.
    change (calls_of a (set_heap _ ?q)) with (calls_of a q).
    rewrite !calls_of_log_call_same, !length_app. cbn. lia.
Qed.

(** *** Capability delegation *)

(** C6: a reserved marker name raises [AttributeError] and leaves the whole
    process as it was: no factory runs and no slot is filled, whatever the
    state of the handle. *)
Theorem getattr_reserved_raises p a attr :
  attr ∈ reserved_names ->
  __getattr__ a attr p = (Exc (AttributeError attr), p).
Proof. intros Hin. unfold __getattr__. by rewrite bool_decide_eq_true_2. Qed.

(** C8 (amended): [__dir__] lists the attributes of whatever the slot holds
    and leaves the process as it was; on an empty slot that is [dir(None)],
    the attributes of [NoneType]. *)
Theorem dir_lists_slot p a h :
  heap p !! a = Some h ->
  __dir__ a p = (Ok (py_dir (_value h)), p)
  /\ (_value h = PyNone -> __dir__ a p = (Ok NoneType_dir, p)).
Proof.
  intros Ha.
  assert (Hd : __dir__ a p = (Ok (py_dir (_value h)), p)).
  { unfold __dir__. by rewrite (bind_Ok _ _ _ _ _ (read_value_Some _ _ _ Ha)). }
  split; [done|]. intros Hv. by rewrite Hd, Hv.
Qed.

(** C10: [__repr__] leaves the process as it was, so it runs no factory and
    fills no slot; the text is built from the raw slot. *)
Theorem repr_does_not_initialize p a :
  snd (__repr__ a p) = p
  /\ fst (__repr__ a p) =
       match heap p !! a with
       | Some h =>
           Ok ("<OncePerWorker at " ++ HexString.of_nat a ++ " of "
                 ++ py_repr (_value h) ++ ">")
       | None => Dangling
       end.
Proof.
  split; [apply repr_state|].
  unfold __repr__, read_value, bind, load, ret. by destruct (heap p !! a).
Qed.

(** *** The registry *)

(** C9: on a free registry lock [instance_for_function] returns a handle
    without running any factory: the log and the globals are untouched, the
    lock is free again, and either the registered handle is returned with
    the process as it was, or one object is allocated with an empty slot and
    a free lock, which is just what the constructor does. Over every history,
    no factory invocation happened while the registry lock was held. *)
Theorem instance_for_function_only_allocates p func token :
  _instances_lock p = false ->
  let k := resolve_token tokenize func token in
  let p' := snd (instance_for_function tokenize func token p) in
  calls p' = calls p
  /\ globals p' = globals p
  /\ _instances_lock p' = false
  /\ (exists a,
        fst (instance_for_function tokenize func token p) = Ok a
        /\ match _instances p !! k with
           | Some a0 => a = a0 /\ p' = p
           | None =>
               a = length (heap p)
               /\ heap p' = (heap p ++ [mkOncePerWorker func k false PyNone])%list
           end)
  /\ (forall t,
        __init__ func t p =
          (Ok (length (heap p)),
           set_heap (heap p ++ [mkOncePerWorker func t false PyNone]) p))
  /\ (forall cs (g : U) ev,
        ev ∈ calls (exec_all tokenize cs (fresh_process g)) ->
        ev_instances_locked ev = false).
Proof.
  intros Hl k p'. unfold p'. rewrite (instance_for_function_free _ _ _ Hl).
  fold k. split_and!.
  - by destruct (_instances p !! k).
  - by destruct (_instances p !! k).
  - by destruct (_instances p !! k).
  - destruct (_instances p !! k) as [a0|]; eauto.
  - done.
  - intros cs g ev. destruct (inv_history cs g) as [_ [Hcalls _]]. apply Hcalls.
Qed.

(** C7 (amended): an explicit token that is not the empty string is the
    registry key, unchanged; without a token, and with the empty string, the
    key is the hash of the factory. *)
Theorem explicit_token_is_registry_key p func token :
  _instances_lock p = false ->
  exists a,
    let p' := snd (instance_for_function tokenize func token p) in
    fst (instance_for_function tokenize func token p) = Ok a
    /\ (forall t, token = Some t -> t <> "" ->
         resolve_token tokenize func token = t /\ _instances p' !! t = Some a)
    /\ (token = None \/ token = Some "" ->
         resolve_token tokenize func token = tokenize func
         /\ _instances p' !! tokenize func = Some a).
Proof.
  intros Hl. cbv zeta. rewrite (instance_for_function_free _ _ _ Hl).
  remember (resolve_token tokenize func token) as k eqn:Hkdef.
  assert (Hkey : exists a,
    fst (match _instances p !! k with
         | Some a => (Ok a, p)
         | None => (Ok (length (heap p)), register k func p)
         end) = Ok a
    /\ _instances (snd (match _instances p !! k with
                        | Some a => (Ok a, p)
                        | None => (Ok (length (heap p)), register k func p)
                        end)) !! k = Some a).
  { destruct (_instances p !! k) as [a|] eqn:Hk; [by exists a|].
    exists (length (heap p)). split; [done|]. apply lookup_insert_eq. }
  destruct Hkey as (a & Hr & Hk). exists a. split; [done|]. split.
  - intros t -> Ht. assert (k = t) as <-; [|done].
    rewrite Hkdef. unfold resolve_token. by destruct t.
  - intros Htok. assert (k = tokenize func) as <-; [|done].
    rewrite Hkdef. unfold resolve_token. by destruct Htok as [->| ->].
Qed.

(** C4: over every sequential history, no two handles carry the same token,
    no call removes or rebinds a registry entry, and once a call of
    [instance_for_function] has returned a handle, every later call that
    resolves to the same token returns that very handle, with the factory
    and the token it already had (those of the first call when that call
    created it), and without changing the process. *)
Theorem registry_first_writer_wins cs (g : U) func token :
  let p := exec_all tokenize cs (fresh_process g) in
  let k := resolve_token tokenize func token in
  let p1 := snd (instance_for_function tokenize func token p) in
  (forall a b ha hb,
     heap p !! a = Some ha -> heap p !! b = Some hb ->
     _token ha = _token hb -> a = b)
  /\ (forall c k' a,
        _instances p !! k' = Some a ->
        _instances (exec tokenize c p) !! k' = Some a)
  /\ exists a h1,
       fst (instance_for_function tokenize func token p) = Ok a
       /\ heap p1 !! a = Some h1
       /\ _token h1 = k
       /\ (_instances p !! k = None -> _func h1 = func /\ _value h1 = PyNone)
       /\ forall cs' func' token',
            resolve_token tokenize func' token' = k ->
            let p2 := exec_all tokenize cs' p1 in
            instance_for_function tokenize func' token' p2 = (Ok a, p2)
            /\ exists h2, heap p2 !! a = Some h2
                          /\ _func h2 = _func h1 /\ _token h2 = _token h1.
Proof.
  intros p k p1. destruct (inv_history cs g) as [Hreg _]. fold p in Hreg.
  split_and!.
  - intros a b ha hb Ha Hb Htok.
    apply (inv_registered _ _ Hreg) in Ha, Hb. rewrite Htok in Ha. congruence.
  - intros c k' a. by apply exec_keeps_entry.
  - assert (Hreg1 : registry_inv tokenize p1) by apply (registry_inv_exec (Call_instance_for_function func token) p Hreg).
    assert (Hfirst : exists a h1,
      fst (instance_for_function tokenize func token p) = Ok a
      /\ _instances p1 !! k = Some a /\ heap p1 !! a = Some h1 /\ _token h1 = k
      /\ (_instances p !! k = None -> _func h1 = func /\ _value h1 = PyNone)).
    { unfold p1. rewrite (instance_for_function_free p) by apply Hreg. fold k.
      destruct (_instances p !! k) as [a|] eqn:Hk.
      - destruct (inv_entries _ _ Hreg _ _ Hk) as (h1 & Ha & Htok).
        exists a, h1. by cbn.
      - exists (length (heap p)), (mkOncePerWorker func k false PyNone). cbn.
        split_and!; try done; [apply lookup_insert_eq|].
        apply lookup_snoc_Some. by right. }
    destruct Hfirst as (a & h1 & Hr & Hk1 & Ha1 & Htok & Hnew).
    exists a, h1. split_and!; try done.
    intros cs' func' token' Hres p2.
    destruct (exec_all_keeps cs' p1 k a h1 Hreg1 Hk1 Ha1) as (Hk2 & h2 & Ha2 & Hf2 & Ht2).
    fold p2 in Hk2, Ha2.
    assert (Hreg2 : registry_inv tokenize p2) by (by apply registry_inv_exec_all).
    split; [|eauto].
    rewrite (instance_for_function_free p2) by apply Hreg2. by rewrite Hres, Hk2.
Qed.

(** *** Pickling *)

(** C3: over every sequential history, pickling a handle and loading it back
    in the same process gives the address of the handle itself and changes
    nothing. The pickled form is the reconstructor with the factory and the
    token: it is the same whatever the slot holds, and loading it in a
    fresh process gives a handle with an empty slot. *)
Theorem pickle_roundtrip_same_handle cs (g : U) a h :
  let p := exec_all tokenize cs (fresh_process g) in
  heap p !! a = Some h ->
  pickle_roundtrip tokenize a p = (Ok a, p)
  /\ __reduce__ a p = (Ok (mkReduced InstanceForFunction (_func h, _token h)), p)
  /\ (forall p' v,
        heap p' !! a = Some (set_value v h) ->
        fst (__reduce__ a p') = fst (__reduce__ a p))
  /\ (forall g',
        unpickle tokenize (mkReduced InstanceForFunction (_func h, _token h))
          (fresh_process g') =
          (Ok 0, mkProcess [mkOncePerWorker (_func h) (_token h) false PyNone]
                   {[ _token h := 0 ]} false g' [])).
Proof.
  intros p Ha. destruct (inv_history cs g) as [Hreg _]. fold p in Hreg.
  assert (Hred : __reduce__ a p =
            (Ok (mkReduced InstanceForFunction (_func h, _token h)), p)).
  { unfold __reduce__. by rewrite (bind_Ok _ _ _ _ _ (load_Some _ _ _ Ha)). }
  pose proof (inv_token _ _ Hreg _ _ Ha) as Htok.
  split_and!.
  - unfold pickle_roundtrip. rewrite (bind_Ok _ _ _ _ _ Hred).
    unfold unpickle; cbn [red_callable red_args fst snd].
    rewrite (instance_for_function_free p) by apply Hreg.
    by rewrite Htok, (inv_registered _ _ Hreg _ _ Ha).
  - done.
  - intros p' v Ha'. rewrite Hred. unfold __reduce__.
    by rewrite (bind_Ok _ _ _ _ _ (load_Some _ _ _ Ha')).
  - intros g'. unfold unpickle; cbn [red_callable red_args fst snd].
    rewrite instance_for_function_free by done. by rewrite Htok.
Qed.

End Sequential.

Section Concurrent.

Context {U : Type}.

Implicit Types (p : @Process U) (h : @OncePerWorker U) (c : @config U)
  (self : addr) (t : pc) (ts : list pc).

(** *** One statement of one thread *)

Lemma thread_step_dangling self t p :
  heap p !! self = None -> thread_step self t p = None.
Proof.
  intros Ha.
  assert (Hload : forall A (k : OncePerWorker -> M A) next handler,
            run_stmt (bind (load self) k) next handler p = None).
  { intros. unfold run_stmt. by rewrite load_None. }
  destruct t; cbn [thread_step]; try done;
    unfold read_value, acquire, call_func, write_value, release;
    try apply Hload.
  unfold run_stmt, bind, load. by rewrite Ha.
Qed.

Lemma thread_step_Some self t p h :
  heap p !! self = Some h ->
  thread_step self t p =
    match t with
    | AtFastCheck =>
        Some (if is_none (_value h) then AtAcquire else Done (Returns (_value h)), p)
    | AtAcquire =>
        if _lock h then None
        else Some (AtRecheck, set_heap (<[self := set_lock true h]> (heap p)) p)
    | AtRecheck => Some (if is_none (_value h) then AtCall else AtAssert, p)
    | AtCall =>
        match _func h (globals p) with
        | (Returns v, g) => Some (AtStore v, log_call self (Returns v) g p)
        | (Raises e, g) => Some (AtRelease (Raises e), log_call self (Raises e) g p)
        end
    | AtStore r =>
        Some (AtAssert, set_heap (<[self := set_value r h]> (heap p)) p)
    | AtAssert =>
        Some (if is_none (_value h) then AtRelease (Raises AssertionError)
              else AtReturn, p)
    | AtReturn => Some (AtRelease (Returns (_value h)), p)
    | AtRelease o =>
        Some (Done o, set_heap (<[self := set_lock false h]> (heap p)) p)
    | Done _ => None
    end.
Proof.
  intros Ha. destruct t; cbn [thread_step]; unfold run_stmt.
  - rewrite (read_value_Some _ _ _ Ha). by destruct (is_none (_value h)).
  - destruct (_lock h) eqn:Hl.
    + by rewrite (acquire_held _ _ _ Ha Hl).
    + by rewrite (acquire_free _ _ _ Ha Hl).
  - by rewrite (read_value_Some _ _ _ Ha).
  - rewrite (call_func_Some _ _ _ Ha).
    by destruct (_func h (globals p)) as [[v|e] g].
  - by rewrite (write_value_Some _ _ _ _ Ha).
  - rewrite (bind_Ok _ _ _ _ _ (read_value_Some _ _ _ Ha)).
    by destruct (is_none (_value h)).
  - by rewrite (read_value_Some _ _ _ Ha).
  - by rewrite (release_Some _ _ _ Ha).
  - done.
Qed.

(** Every statement brings its thread closer to the end. *)
Lemma thread_step_weight self t p t' p' :
  thread_step self t p = Some (t', p') -> weight t' < weight t.
Proof.
  destruct (heap p !! self) as [h|] eqn:Ha.
  - rewrite (thread_step_Some _ _ _ _ Ha).
    destruct t; try done.
    + destruct (is_none (_value h)); intros [= <- _]; cbn; lia.
    + destruct (_lock h); [done|]. intros [= <- _]; cbn; lia.
    + destruct (is_none (_value h)); intros [= <- _]; cbn; lia.
    + destruct (_func h (globals p)) as [[v|e] g]; intros [= <- _]; cbn; lia.
    + intros [= <- _]; cbn; lia.
    + destruct (is_none (_value h)); intros [= <- _]; cbn; lia.
    + intros [= <- _]; cbn; lia.
    + intros [= <- _]; cbn; lia.
  - by rewrite thread_step_dangling.
Qed.

Lemma sum_weight_insert ts i t t' :
  ts !! i = Some t -> weight t' < weight t ->
  sum_list (weight <$> <[i := t']> ts) < sum_list (weight <$> ts).
Proof.
  revert i. induction ts as [|t0 ts IH]; intros [|i] Hi Hw; try done.
  - injection Hi as ->. change (weight t' + sum_list (weight <$> ts)
                                 < weight t + sum_list (weight <$> ts)). lia.
  - specialize (IH i Hi Hw).
    change (weight t0 + sum_list (weight <$> <[i:=t']> ts)
            < weight t0 + sum_list (weight <$> ts)). lia.
Qed.

Lemma sched_step_inv self i c c' :
  sched_step self i c = Some c' ->
  exists t t',
    fst c !! i = Some t
    /\ thread_step self t (snd c) = Some (t', snd c')
    /\ fst c' = <[i := t']> (fst c).
Proof.
  unfold sched_step. destruct (fst c !! i) as [t|]; [|done].
  destruct (thread_step self t (snd c)) as [[t' p']|] eqn:Hs; [|done].
  intros [= <-]. by exists t, t'.
Qed.

Lemma sched_step_measure self i c c' :
  sched_step self i c = Some c' -> measure c' < measure c.
Proof.
  intros (t & t' & Hi & Hs & Heq)%sched_step_inv. unfold measure. rewrite Heq.
  eapply sum_weight_insert; [done|]. by eapply thread_step_weight.
Qed.

(** *** One thread on its own *)

Lemma run_cons self i sched ts p t t' p' c :
  ts !! i = Some t -> thread_step self t p = Some (t', p') ->
  run self sched (<[i := t']> ts, p') = Some c ->
  run self (i :: sched) (ts, p) = Some c.
Proof.
  intros Hi Hs Hrun. cbn [run]. unfold sched_step. cbn [fst snd].
  by rewrite Hi, Hs.
Qed.

(** A thread that runs alone goes through the statements of [_get_value] and
    ends where the method ends: same result, same process. *)
Lemma solo_thread_agrees self p h :
  heap p !! self = Some h -> _lock h = false ->
  exists sched o p',
    run self sched (spawn 1 p) = Some ([Done o], p')
    /\ _get_value self p = lift_outcome o p'.
Proof.
  intros Ha Hl. unfold spawn. cbn [replicate].
  pose proof (lookup_lt_Some _ _ _ Ha) as Hlt.
  destruct (is_none (_value h)) eqn:Hv.
  2:{ exists [0], (Returns (_value h)), p. split.
      - eapply run_cons; [done|by rewrite (thread_step_Some _ _ _ _ Ha), Hv|].
        done.
      - by rewrite (get_value_populated _ _ _ Ha Hv). }
  rewrite (get_value_empty _ _ _ Ha Hl Hv).
  set (p1 := set_heap (<[self := set_lock true h]> (heap p)) p).
  assert (H1 : heap p1 !! self = Some (set_lock true h))
    by (by apply list_lookup_insert_eq).
  assert (Hstart : forall sched c,
            run self sched ([AtCall], p1) = Some c ->
            run self (0 :: 0 :: 0 :: sched) ([AtFastCheck], p) = Some c).
  { intros sched c Hrun.
    eapply run_cons; [done|by rewrite (thread_step_Some _ _ _ _ Ha), Hv|].
    eapply run_cons; [done|by rewrite (thread_step_Some _ _ _ _ Ha), Hl|].
    eapply run_cons; [done| |].
    { rewrite (thread_step_Some _ _ _ _ H1). cbn [_value set_lock]. by rewrite Hv. }
    done. }
  destruct (_func h (globals p)) as [[v|e] g] eqn:Hf.
  - set (p2 := log_call self (Returns v) g p1).
    assert (H2 : heap p2 !! self = Some (set_lock true h)) by done.
    set (p3 := set_heap (<[self := set_value v (set_lock true h)]> (heap p2)) p2).
    assert (H3 : heap p3 !! self = Some (set_value v (set_lock true h)))
      by apply (heap_insert_lookup p2 self _ _ H2).
    assert (Hmid : forall sched c,
              run self sched ([AtAssert], p3) = Some c ->
              run self (0 :: 0 :: sched) ([AtCall], p1) = Some c).
    { intros sched c Hrun.
      eapply run_cons; [done| |].
      { rewrite (thread_step_Some _ _ _ _ H1). cbn [_func set_lock globals p1 set_heap].
        by rewrite Hf. }
      eapply run_cons; [done|by rewrite (thread_step_Some _ _ _ _ H2)|]. done. }
    destruct (is_none v) eqn:Hnv.
    + exists [0; 0; 0; 0; 0; 0; 0], (Raises AssertionError),
        (log_call self (Returns v) g p).
      split; [|done]. apply Hstart, Hmid.
      eapply run_cons; [done| |].
      { rewrite (thread_step_Some _ _ _ _ H3). cbn [_value set_value].
        by rewrite Hnv. }
      eapply run_cons; [done|by rewrite (thread_step_Some _ _ _ _ H3)|].
      cbn [run insert list_insert]. do 2 f_equal.
      apply is_none_true in Hnv, Hv. subst v.
      unfold p3, p2, p1, set_heap, log_call; cbn.
      rewrite !list_insert_insert_eq, set_lock_release_value by done.
      rewrite list_insert_id; [done|]. rewrite Ha. f_equal.
      destruct h; cbn in *; by subst.
    + exists [0; 0; 0; 0; 0; 0; 0; 0], (Returns v),
        (set_heap (<[self := set_value v h]> (heap p))
           (log_call self (Returns v) g p)).
      split; [|done]. apply Hstart, Hmid.
      eapply run_cons; [done| |].
      { rewrite (thread_step_Some _ _ _ _ H3). cbn [_value set_value].
        by rewrite Hnv. }
      eapply run_cons; [done|by rewrite (thread_step_Some _ _ _ _ H3)|].
      eapply run_cons; [done|by rewrite (thread_step_Some _ _ _ _ H3)|].
      cbn [run insert list_insert _value set_value]. do 2 f_equal.
      unfold p3, p2, p1, set_heap, log_call; cbn.
      by rewrite !list_insert_insert_eq, set_lock_release_value.
  - set (p2 := log_call self (Raises e) g p1).
    assert (H2 : heap p2 !! self = Some (set_lock true h)) by done.
    exists [0; 0; 0; 0; 0], (Raises e), (log_call self (Raises e) g p).
    split; [|done]. apply Hstart.
    eapply run_cons; [done| |].
    { rewrite (thread_step_Some _ _ _ _ H1). cbn [_func set_lock globals p1 set_heap].
      by rewrite Hf. }
    eapply run_cons; [done|by rewrite (thread_step_Some _ _ _ _ H2)|].
    cbn [run insert list_insert]. do 2 f_equal.
    unfold p2, p1, set_heap, log_call; cbn.
    rewrite !list_insert_insert_eq, set_lock_release by done.
    by rewrite list_insert_id.
Qed.

(** *** Mutual exclusion *)

(** A statement keeps the thread on its side of the [with] block and the
    lock as it is, or enters the block on a free lock, or leaves it. *)
Lemma step_shape self t p h t' p' :
  heap p !! self = Some h -> thread_step self t p = Some (t', p') ->
  (holds_lock t' = holds_lock t
   /\ exists h', heap p' !! self = Some h' /\ _lock h' = _lock h)
  \/ (holds_lock t = false /\ holds_lock t' = true /\ _lock h = false
      /\ exists h', heap p' !! self = Some h' /\ _lock h' = true)
  \/ (holds_lock t = true /\ holds_lock t' = false
      /\ exists h', heap p' !! self = Some h' /\ _lock h' = false).
Proof.
  intros Ha. rewrite (thread_step_Some _ _ _ _ Ha).
  pose proof (lookup_lt_Some _ _ _ Ha) as Hlt.
  destruct t.
  - intros [= <- <-]. left. split; [by destruct (is_none (_value h))|eauto].
  - destruct (_lock h) eqn:Hl; [done|]. intros [= <- <-]. right; left.
    split_and!; try done. exists (set_lock true h). split; [|done].
    by apply list_lookup_insert_eq.
  - intros [= <- <-]. left. split; [by destruct (is_none (_value h))|eauto].
  - destruct (_func h (globals p)) as [[v|e] g]; intros [= <- <-]; left; eauto.
  - intros [= <- <-]. left. split; [done|]. exists (set_value r h).
    split; [|done]. by apply list_lookup_insert_eq.
  - intros [= <- <-]. left. split; [by destruct (is_none (_value h))|eauto].
  - intros [= <- <-]. left. eauto.
  - intros [= <- <-]. right; right. split_and!; try done.
    exists (set_lock false h). split; [|done]. by apply list_lookup_insert_eq.
  - done.
Qed.

Lemma mutex_inv_spawn self n p h :
  heap p !! self = Some h -> _lock h = false -> mutex_inv self (spawn n p).
Proof.
  intros Ha Hl. exists h. split; [done|]. rewrite Hl.
  intros j tj [-> _]%lookup_replicate. done.
Qed.

Lemma mutex_inv_step self i c c' :
  mutex_inv self c -> sched_step self i c = Some c' -> mutex_inv self c'.
Proof.
  intros (h & Ha & Hmx) (t & t' & Hi & Hs & Hts)%sched_step_inv.
  destruct c as [ts p], c' as [ts' p']. cbn [fst snd] in *. subst ts'.
  pose proof (lookup_lt_Some _ _ _ Hi) as Hlt.
  destruct (step_shape _ _ _ _ _ _ Ha Hs)
    as [(Hh & h' & Ha' & Hl')|[(Hh & Hh' & Hl & h' & Ha' & Hl')
                              |(Hh & Hh' & h' & Ha' & Hl')]];
    exists h'; (split; [done|]); cbn [fst snd]; rewrite Hl'.
  - destruct (_lock h).
    + destruct Hmx as (i0 & t0 & Hi0 & Hh0 & Huniq).
      destruct (decide (i = i0)) as [->|Hne].
      * exists i0, t'. rewrite list_lookup_insert_eq by done.
        rewrite Hi in Hi0. injection Hi0 as ->. split_and!; [done|congruence|].
        intros j tj [(<- & _)|[_ Hj]]%list_lookup_insert_Some Hhj; [done|eauto].
      * exists i0, t0. rewrite list_lookup_insert_ne by done.
        split_and!; [done..|].
        intros j tj [(<- & <- & _)|[_ Hj]]%list_lookup_insert_Some Hhj; [|eauto].
        rewrite Hh in Hhj. by apply (Huniq i t).
    + intros j tj [(<- & <- & _)|[_ Hj]]%list_lookup_insert_Some; [|eauto].
      rewrite Hh. eauto.
  - rewrite Hl in Hmx. exists i, t'. rewrite list_lookup_insert_eq by done.
    split_and!; [done..|].
    intros j tj [(<- & _)|[_ Hj]]%list_lookup_insert_Some Hhj; [done|].
    apply Hmx in Hj. congruence.
  - intros j tj [(<- & <- & _)|[Hne Hj]]%list_lookup_insert_Some; [done|].
    destruct (_lock h).
    + destruct Hmx as (i0 & t0 & Hi0 & Hh0 & Huniq).
      destruct (holds_lock tj) eqn:Hhj; [|done].
      pose proof (Huniq _ _ Hi Hh). pose proof (Huniq _ _ Hj Hhj). congruence.
    + apply Hmx in Hi. congruence.
Qed.

(** A thread inside the block has the lock to itself. *)
Lemma mutex_inv_holder self ts p i t :
  mutex_inv self (ts, p) -> ts !! i = Some t -> holds_lock t = true ->
  exists h, heap p !! self = Some h /\ _lock h = true
    /\ forall j tj, ts !! j = Some tj -> j <> i -> holds_lock tj = false.
Proof.
  intros (h & Ha & Hmx) Hi Hh. cbn [fst snd] in *. exists h. split; [done|].
  destruct (_lock h).
  - split; [done|]. destruct Hmx as (i0 & t0 & Hi0 & Hh0 & Huniq).
    intros j tj Hj Hne. destruct (holds_lock tj) eqn:Hhj; [|done].
    pose proof (Huniq _ _ Hi Hh). pose proof (Huniq _ _ Hj Hhj). congruence.
  - apply Hmx in Hi. congruence.
Qed.

(** *** The phases of a run *)

Section Phases.

Variables (self : addr) (func : @Factory U) (n0 : nat) (g0 g1 : U) (v : pyval).
Hypothesis func_returns : func g0 = (Returns v, g1).
Hypothesis v_not_none : is_none v = false.

Lemma phase_spawn n p h :
  heap p !! self = Some h -> _func h = func -> _value h = PyNone ->
  globals p = g0 -> invocations self p = n0 ->
  phase self func n0 g0 g1 v (spawn n p).
Proof.
  intros. eapply phase_before; try done.
  apply Forall_forall. by intros t [-> _]%elem_of_replicate.
Qed.

Lemma phase_step i c c' :
  mutex_inv self c -> phase self func n0 g0 g1 v c ->
  sched_step self i c = Some c' -> phase self func n0 g0 g1 v c'.
Proof.
  intros Hmx Hph (t & t' & Hi & Hs & Hts)%sched_step_inv.
  destruct c' as [ts' p']. cbn [fst snd] in *. subst ts'.
  destruct Hph as [ts p h Ha Hf Hv Hg Hn Hall|ts p h Ha Hf Hv Hl Hg Hn Hall
                  |ts p h Ha Hf Hv Hg Hn Hall];
    cbn [fst snd] in *;
    pose proof (lookup_lt_Some _ _ _ Ha) as Hlt;
    pose proof (Forall_lookup_1 _ _ _ _ Hall Hi) as Ht;
    rewrite (thread_step_Some _ _ _ _ Ha) in Hs.
  - (* before the call *)
    destruct t; try done.
    + rewrite Hv in Hs. injection Hs as <- <-.
      eapply phase_before; try done. by apply Forall_insert.
    + destruct (_lock h) eqn:Hl; [done|]. injection Hs as <- <-.
      eapply (phase_before _ _ _ _ _ _ _ _ (set_lock true h)); try done.
      * by apply list_lookup_insert_eq.
      * by apply Forall_insert.
    + rewrite Hv in Hs. injection Hs as <- <-.
      eapply phase_before; try done. by apply Forall_insert.
    + rewrite Hf, Hg, func_returns in Hs. injection Hs as <- <-.
      destruct (mutex_inv_holder _ _ _ _ _ Hmx Hi eq_refl) as (h0 & Ha0 & Hl0 & Hothers).
      rewrite Ha in Ha0. injection Ha0 as <-.
      eapply (phase_storing _ _ _ _ _ _ _ _ h); try done.
      * unfold invocations. rewrite calls_of_log_call_same, length_app.
        unfold invocations in Hn. cbn. lia.
      * apply Forall_lookup_2.
        intros j tj [(<- & <- & _)|[Hne Hj]]%list_lookup_insert_Some.
        { by right; right. }
        pose proof (Forall_lookup_1 _ _ _ _ Hall Hj) as Hb.
        pose proof (Hothers _ _ Hj (not_eq_sym Hne)) as Hh.
        destruct tj; try done; [by left|by right; left].
  - (* the result waits to be stored *)
    destruct Ht as [->|[->| ->]].
    + rewrite Hv in Hs. injection Hs as <- <-.
      eapply phase_storing; try done. apply Forall_insert; [done|]. by right; left.
    + by rewrite Hl in Hs.
    + injection Hs as <- <-.
      destruct (mutex_inv_holder _ _ _ _ _ Hmx Hi eq_refl) as (h0 & Ha0 & Hl0 & Hothers).
      eapply (phase_stored _ _ _ _ _ _ _ _ (set_value v h)); try done.
      * by apply list_lookup_insert_eq.
      * apply Forall_lookup_2.
        intros j tj [(<- & <- & _)|[Hne Hj]]%list_lookup_insert_Some.
        { unfold after_store. tauto. }
        pose proof (Forall_lookup_1 _ _ _ _ Hall Hj) as Hb.
        pose proof (Hothers _ _ Hj (not_eq_sym Hne)) as Hh.
        destruct Hb as [->|[->| ->]]; unfold after_store; try tauto. done.
  - (* the slot is populated *)
    assert (Hnv : is_none (_value h) = false) by (by rewrite Hv).
    destruct Ht as [->|[->|[->|[->|[->|[->| ->]]]]]].
    + rewrite Hnv, Hv in Hs. injection Hs as <- <-.
      eapply phase_stored; try done. apply Forall_insert; [done|].
      unfold after_store. tauto.
    + destruct (_lock h) eqn:Hl; [done|]. injection Hs as <- <-.
      eapply (phase_stored _ _ _ _ _ _ _ _ (set_lock true h)); try done.
      * by apply list_lookup_insert_eq.
      * apply Forall_insert; [done|]. unfold after_store. tauto.
    + rewrite Hnv in Hs. injection Hs as <- <-.
      eapply phase_stored; try done. apply Forall_insert; [done|].
      unfold after_store. tauto.
    + rewrite Hnv in Hs. injection Hs as <- <-.
      eapply phase_stored; try done. apply Forall_insert; [done|].
      unfold after_store. tauto.
    + rewrite Hv in Hs. injection Hs as <- <-.
      eapply phase_stored; try done. apply Forall_insert; [done|].
      unfold after_store. tauto.
    + injection Hs as <- <-.
      eapply (phase_stored _ _ _ _ _ _ _ _ (set_lock false h)); try done.
      * by apply list_lookup_insert_eq.
      * apply Forall_insert; [done|]. unfold after_store. tauto.
    + done.
Qed.

Lemma run_inv sched c c' :
  mutex_inv self c -> phase self func n0 g0 g1 v c ->
  run self sched c = Some c' ->
  mutex_inv self c' /\ phase self func n0 g0 g1 v c'
  /\ length (fst c') = length (fst c).
Proof.
  revert c. induction sched as [|i sched IH]; intros c Hmx Hph; cbn [run].
  - by intros [= <-].
  - destruct (sched_step self i c) as [c1|] eqn:Hs; [|done]. intros Hrun.
    destruct (IH c1) as (Hmx' & Hph' & Hlen);
      [by eapply mutex_inv_step|by eapply phase_step|done|].
    split_and!; [done..|]. rewrite Hlen.
    apply sched_step_inv in Hs as (t & t' & _ & _ & ->). apply length_insert.
Qed.

(** In every phase the factory has run at most once. *)
Lemma phase_invocations c :
  phase self func n0 g0 g1 v c -> invocations self (snd c) <= S n0.
Proof. intros [ts p h| |]; cbn [snd]; lia. Qed.

(** When a thread is back in its caller the slot is populated, and every
    thread that is back returned what the slot holds. *)
Lemma phase_done c i o :
  phase self func n0 g0 g1 v c -> fst c !! i = Some (Done o) ->
  o = Returns v
  /\ globals (snd c) = g1 /\ invocations self (snd c) = S n0
  /\ exists h, heap (snd c) !! self = Some h /\ _value h = v.
Proof.
  intros [ts p h Ha Hf Hv Hg Hn Hall|ts p h Ha Hf Hv Hl Hg Hn Hall
         |ts p h Ha Hf Hv Hg Hn Hall] Hi; cbn [fst snd] in *;
    pose proof (Forall_lookup_1 _ _ _ _ Hall Hi) as Ht.
  - done.
  - by destruct Ht as [?|[?|?]].
  - destruct Ht as [?|[?|[?|[?|[?|[?|[= ->]]]]]]]; try done.
    split_and!; eauto.
Qed.

End Phases.

(** *** Progress *)

Lemma holder_enabled self t p h :
  heap p !! self = Some h -> holds_lock t = true ->
  is_Some (thread_step self t p).
Proof.
  intros Ha Hh. rewrite (thread_step_Some _ _ _ _ Ha).
  destruct t; try done.
  by destruct (_func h (globals p)) as [[v|e] g].
Qed.

Lemma free_lock_enabled self t p h :
  heap p !! self = Some h -> _lock h = false -> is_done t = false ->
  is_Some (thread_step self t p).
Proof.
  intros Ha Hl Hd. rewrite (thread_step_Some _ _ _ _ Ha), Hl.
  destruct t; try done.
  by destruct (_func h (globals p)) as [[v|e] g].
Qed.

(** While a thread has not returned, some thread can move: deadlock is
    impossible. *)
Lemma mutex_inv_progress self c :
  mutex_inv self c -> forallb is_done (fst c) = false ->
  exists i c', sched_step self i c = Some c'.
Proof.
  intros (h & Ha & Hmx) Hnd.
  assert (Hrun : forall i t, fst c !! i = Some t ->
            is_Some (thread_step self t (snd c)) ->
            exists i c', sched_step self i c = Some c').
  { intros i t Hi [[t' p'] Hs]. exists i. unfold sched_step. rewrite Hi, Hs. eauto. }
  destruct (_lock h) eqn:Hl.
  - destruct Hmx as (i0 & t0 & Hi0 & Hh0 & _).
    eapply Hrun; [done|]. by eapply holder_enabled.
  - assert (Hex : exists i t, fst c !! i = Some t /\ is_done t = false).
    { clear -Hnd. induction (fst c) as [|t ts IH]; [done|]. cbn in Hnd.
      destruct (is_done t) eqn:Hd.
      - destruct (IH Hnd) as (i & t1 & Hi & Hd1). by exists (S i), t1.
      - by exists 0, t. }
    destruct Hex as (i & t & Hi & Hd).
    eapply Hrun; [done|]. by eapply free_lock_enabled.
Qed.

Lemma run_length self sched c c' :
  run self sched c = Some c' -> length sched + measure c' <= measure c.
Proof.
  revert c. induction sched as [|i sched IH]; intros c; cbn [run length].
  - intros [= <-]. lia.
  - destruct (sched_step self i c) as [c1|] eqn:Hs; [|done]. intros Hrun.
    apply IH in Hrun. apply sched_step_measure in Hs. lia.
Qed.

Lemma measure_spawn n p : measure (spawn n p) = 8 * n.
Proof.
  unfold measure, spawn. cbn [fst]. induction n as [|n IH]; [done|].
  change (8 + sum_list (weight <$> replicate n AtFastCheck) = 8 * S n). lia.
Qed.

Lemma forallb_is_done_lookup ts i t :
  forallb is_done ts = true -> ts !! i = Some t -> exists o, t = Done o.
Proof.
  rewrite forallb_forall. intros Hall Hi.
  assert (Hd : is_done t = true).
  { apply Hall, list_elem_of_In, list_elem_of_lookup. eauto. }
  destruct t; try done. eauto.
Qed.

(** C2 (amended): [n] threads call [_get_value] at the same time on a handle
    with an empty slot, whose factory increments the shared counter and
    returns a value other than [None]. Under every schedule the factory has been invoked at most once and
    the counter is at most one above its start; when all threads are back,
    the factory has been invoked exactly once, the counter is exactly one
    above its start, and every thread returned the value in the slot. The
    threads do get back: while one is not, some thread can move, every step
    lowers the measure, and no schedule is longer than [8 * n]. *)
Theorem concurrent_callers_run_factory_once
    (counter : U -> nat) self n p0 h v g1 sched c :
  heap p0 !! self = Some h -> _lock h = false -> _value h = PyNone ->
  _func h (globals p0) = (Returns v, g1) -> is_none v = false ->
  counter g1 = S (counter (globals p0)) ->
  0 < n ->
  run self sched (spawn n p0) = Some c ->
  invocations self (snd c) <= S (invocations self p0)
  /\ counter (globals (snd c)) <= S (counter (globals p0))
  /\ (forallb is_done (fst c) = true ->
      invocations self (snd c) = S (invocations self p0)
      /\ counter (globals (snd c)) = S (counter (globals p0))
      /\ length (fst c) = n
      /\ Forall (fun t => t = Done (Returns v)) (fst c)
      /\ exists h', heap (snd c) !! self = Some h' /\ _value h' = v)
  /\ (forallb is_done (fst c) = false ->
      exists i c', sched_step self i c = Some c')
  /\ (forall i c', sched_step self i c = Some c' -> measure c' < measure c)
  /\ length sched <= 8 * n.
Proof.
  intros Ha Hl Hv Hf Hnv Hcount Hn Hrun.
  destruct (run_inv self (_func h) (invocations self p0) (globals p0) g1 v
              Hf Hnv sched (spawn n p0) c) as (Hmx & Hph & Hlen);
    [by eapply mutex_inv_spawn|by eapply phase_spawn|done|].
  unfold spawn in Hlen. cbn [fst] in Hlen. rewrite length_replicate in Hlen.
  split_and!.
  - by eapply phase_invocations.
  - destruct Hph as [ts p h' _ _ _ Hg _ _|ts p h' _ _ _ _ Hg _ _|ts p h' _ _ _ Hg _ _];
      cbn [snd]; rewrite Hg; lia.
  - intros Hdone.
    destruct (lookup_lt_is_Some_2 (fst c) 0) as [t0 H0]; [lia|].
    destruct (forallb_is_done_lookup _ _ _ Hdone H0) as [o0 ->].
    destruct (phase_done _ _ _ _ _ _ _ _ _ Hph H0) as (_ & Hg & Hinv & Hslot).
    split_and!; try done; [by rewrite Hg|].
    apply Forall_lookup_2. intros i t Hi.
    destruct (forallb_is_done_lookup _ _ _ Hdone Hi) as [o ->].
    by destruct (phase_done _ _ _ _ _ _ _ _ _ Hph Hi) as [-> _].
  - by apply mutex_inv_progress.
  - intros i c'. apply sched_step_measure.
  - apply run_length in Hrun. rewrite measure_spawn in Hrun. lia.
Qed.

End Concurrent.

(** * Further properties of the sequential methods *)

Section SequentialMore.

Context {U : Type} (tokenize : @Factory U -> string).

Implicit Types (p q : @Process U) (h : @OncePerWorker U) (a b self : addr).

(** The state [_get_value] leaves behind, whatever the lock. *)
Lemma get_value_state_any p a :
  snd (_get_value a p) =
    match heap p !! a with
    | None => p
    | Some h =>
        if is_none (_value h)
        then if _lock h then p
             else match _func h (globals p) with
                  | (Returns v, g) =>
                      if is_none v then log_call a (Returns v) g p
                      else set_heap (<[a := set_value v h]> (heap p))
                             (log_call a (Returns v) g p)
                  | (Raises e, g) => log_call a (Raises e) g p
                  end
        else p
    end.
Proof.
  destruct (heap p !! a) as [h|] eqn:Ha; [|by rewrite get_value_dangling].
  destruct (is_none (_value h)) eqn:Hv;
    [|by rewrite (get_value_populated _ _ _ Ha Hv)].
  destruct (_lock h) eqn:Hl; [by rewrite (get_value_held _ _ _ Ha Hl Hv)|].
  rewrite (get_value_empty _ _ _ Ha Hl Hv).
  destruct (_func h (globals p)) as [[v|e] g]; [by destruct (is_none v)|done].
Qed.

(** What one call does to one handle: the factory, the token and the lock
    stay; the slot stays, or goes from empty to populated; a populated slot
    means no further invocation. *)
Lemma exec_handle c p a h :
  registry_inv tokenize p -> heap p !! a = Some h ->
  exists h',
    heap (exec tokenize c p) !! a = Some h'
    /\ _func h' = _func h /\ _token h' = _token h /\ _lock h' = _lock h
    /\ (is_none (_value h) = false ->
        _value h' = _value h
        /\ calls_of a (exec tokenize c p) = calls_of a p).
Proof.
  intros Hinv Ha.
  assert (Hget : forall b, exists h',
    heap (snd (_get_value b p)) !! a = Some h'
    /\ _func h' = _func h /\ _token h' = _token h /\ _lock h' = _lock h
    /\ (is_none (_value h) = false ->
        _value h' = _value h /\ calls_of a (snd (_get_value b p)) = calls_of a p)).
  { intros b. rewrite get_value_state_any.
    destruct (heap p !! b) as [hb|] eqn:Hb; [|by exists h].
    destruct (is_none (_value hb)) eqn:Hvb; [|by exists h].
    destruct (_lock hb); [by exists h|].
    destruct (decide (b = a)) as [->|Hne].
    - rewrite Ha in Hb. injection Hb as ->.
      destruct (_func hb (globals p)) as [[v|e] g].
      + destruct (is_none v).
        * exists hb. split_and!; try done. congruence.
        * exists (set_value v hb). split_and!; try done; [|congruence].
          by apply (heap_insert_lookup p a hb).
      + exists hb. split_and!; try done. congruence.
    - destruct (_func hb (globals p)) as [[v|e] g].
      + destruct (is_none v).
        * exists h. split_and!; try done. intros _.
          by rewrite calls_of_log_call_other.
        * exists h. split_and!; try done.
          { unfold set_heap; cbn [heap log_call].
            by rewrite list_lookup_insert_ne. }
          intros _. split; [done|].
          change (calls_of a (set_heap _ ?q)) with (calls_of a q).
          by rewrite calls_of_log_call_other.
      + exists h. split_and!; try done. intros _.
        by rewrite calls_of_log_call_other. }
  assert (Hifn : forall func token, exists h',
    heap (snd (instance_for_function tokenize func token p)) !! a = Some h'
    /\ _func h' = _func h /\ _token h' = _token h /\ _lock h' = _lock h
    /\ (is_none (_value h) = false ->
        _value h' = _value h
        /\ calls_of a (snd (instance_for_function tokenize func token p))
           = calls_of a p)).
  { intros func token. rewrite instance_for_function_state by apply Hinv.
    destruct (_instances p !! _); [by exists h|].
    exists h. split_and!; try done.
    unfold register; cbn [heap]. by apply lookup_app_l_Some. }
  destruct c as [func token|b|b attr|b|b|b|r]; cbn [exec].
  - apply Hifn.
  - apply Hget.
  - rewrite getattr_state. case_bool_decide; [by exists h|apply Hget].
  - rewrite dir_state. by exists h.
  - rewrite repr_state. by exists h.
  - rewrite reduce_state. by exists h.
  - unfold unpickle. destruct (red_callable r). apply Hifn.
Qed.

Lemma exec_all_populated cs p a h :
  registry_inv tokenize p -> heap p !! a = Some h ->
  is_none (_value h) = false ->
  exists h',
    heap (exec_all tokenize cs p) !! a = Some h'
    /\ _value h' = _value h
    /\ calls_of a (exec_all tokenize cs p) = calls_of a p.
Proof.
  revert p h. induction cs as [|c cs IH]; intros p h Hinv Ha Hv; [by exists h|].
  cbn [exec_all].
  destruct (exec_handle c p a h Hinv Ha) as (h1 & Ha1 & _ & _ & _ & Hkeep).
  destruct (Hkeep Hv) as [Hv1 Hc1].
  destruct (IH (exec tokenize c p) h1) as (h2 & Ha2 & Hv2 & Hc2);
    [by apply registry_inv_exec|done|congruence|].
  exists h2. split_and!; [done|congruence|congruence].
Qed.

(** X1: once [_get_value] has returned a value, the slot keeps it through
    every later call of the interface, the factory is not invoked again, and
    [_get_value] returns the same value without changing the process. *)
Theorem get_value_reuses_value cs0 (g : U) a v cs :
  let p := exec_all tokenize cs0 (fresh_process g) in
  let p1 := snd (_get_value a p) in
  let p2 := exec_all tokenize cs p1 in
  fst (_get_value a p) = Ok v ->
  _get_value a p2 = (Ok v, p2)
  /\ invocations a p2 = invocations a p1
  /\ exists h2, heap p2 !! a = Some h2 /\ _value h2 = v.
Proof.
  intros p p1 p2 Hok. destruct (inv_history tokenize cs0 g) as [Hreg _].
  fold p in Hreg.
  assert (Hreg1 : registry_inv tokenize p1)
    by apply (registry_inv_exec tokenize (Call_get_value a) p Hreg).
  assert (Hslot : exists h1, heap p1 !! a = Some h1 /\ _value h1 = v
                             /\ is_none v = false).
  { unfold p1. destruct (heap p !! a) as [h|] eqn:Ha;
      [|by rewrite get_value_dangling in Hok].
    pose proof (inv_locks _ _ Hreg _ _ Ha) as Hl.
    destruct (is_none (_value h)) eqn:Hv.
    - rewrite (get_value_empty _ _ _ Ha Hl Hv) in Hok |- *.
      destruct (_func h (globals p)) as [[v'|e] g']; [|done].
      destruct (is_none v') eqn:Hnv; [done|]. injection Hok as ->.
      exists (set_value v h). split_and!; try done.
      by apply (heap_insert_lookup p a h).
    - rewrite (get_value_populated _ _ _ Ha Hv) in Hok |- *.
      injection Hok as <-. by exists h. }
  destruct Hslot as (h1 & Ha1 & Hv1 & Hnv). rewrite <- Hv1 in Hnv.
  destruct (exec_all_populated cs p1 a h1 Hreg1 Ha1 Hnv) as (h2 & Ha2 & Hv2 & Hc2).
  fold p2 in Ha2, Hc2. split_and!.
  - rewrite (get_value_populated p2 a h2 Ha2) by congruence. congruence.
  - unfold invocations. by rewrite Hc2.
  - exists h2. split; [done|congruence].
Qed.

(** X2: the fast path takes no lock. While the lock of the handle is held,
    [_get_value] on a populated slot returns the value at once, and on an
    empty slot it waits for the lock (a [threading.Lock] is not reentrant);
    either way the process is as before. *)
Theorem get_value_while_lock_held p a h :
  heap p !! a = Some h -> _lock h = true ->
  _get_value a p =
    if is_none (_value h) then (Blocked, p) else (Ok (_value h), p).
Proof.
  intros Ha Hl. destruct (is_none (_value h)) eqn:Hv.
  - by apply (get_value_held p a h).
  - by apply (get_value_populated p a h).
Qed.

(** X3: a factory that returns [None] makes [_get_value] raise
    [AssertionError]: the invocation is logged with its effect on the
    globals, the lock is free again and the slot is still empty. *)
Theorem get_value_none_result_asserts p a h g :
  heap p !! a = Some h -> _lock h = false -> _value h = PyNone ->
  _func h (globals p) = (Returns PyNone, g) ->
  _get_value a p = (Exc AssertionError, log_call a (Returns PyNone) g p)
  /\ heap (snd (_get_value a p)) !! a = Some h.
Proof.
  intros Ha Hl Hv Hf.
  assert (Hn : is_none (_value h) = true) by (by rewrite Hv).
  rewrite (get_value_empty _ _ _ Ha Hl Hn), Hf. by cbn.
Qed.

(** X4: any name that is not reserved is looked up on the resolved value.
    On a populated slot the answer is [getattr] of the cached value and the
    process is as before; on an empty slot with a free lock the factory runs
    first and its result is cached, also when the value lacks the attribute
    and the access ends in [AttributeError]. *)
Theorem getattr_forwards_to_value p a h attr :
  attr ∉ reserved_names -> heap p !! a = Some h ->
  (is_none (_value h) = false ->
   __getattr__ a attr p = lift_outcome (py_getattr (_value h) attr) p)
  /\ (forall v g,
        _lock h = false -> _value h = PyNone ->
        _func h (globals p) = (Returns v, g) -> is_none v = false ->
        __getattr__ a attr p =
          lift_outcome (py_getattr v attr)
            (set_heap (<[a := set_value v h]> (heap p))
               (log_call a (Returns v) g p))).
Proof.
  intros Hattr Ha. unfold __getattr__. rewrite bool_decide_eq_false_2 by done.
  split.
  - intros Hv. by rewrite (bind_Ok _ _ _ _ _ (get_value_populated _ _ _ Ha Hv)).
  - intros v g Hl Hv Hf Hnv.
    assert (Hn : is_none (_value h) = true) by (by rewrite Hv).
    erewrite bind_Ok; [done|].
    by rewrite (get_value_empty _ _ _ Ha Hl Hn), Hf, Hnv.
Qed.

(** X5: [_get_value] on one handle is local to it. In every process the
    registry, its lock and the number of objects are as before, every other
    handle and its log are untouched, and the factory of the handle is
    invoked at most once by the call. *)
Theorem get_value_frame p a :
  let p' := snd (_get_value a p) in
  _instances p' = _instances p
  /\ _instances_lock p' = _instances_lock p
  /\ length (heap p') = length (heap p)
  /\ (forall b, b <> a ->
        heap p' !! b = heap p !! b /\ calls_of b p' = calls_of b p)
  /\ invocations a p <= invocations a p' <= S (invocations a p).
Proof.
  cbv zeta. rewrite get_value_state_any.
  assert (Hsame : _instances p = _instances p
    /\ _instances_lock p = _instances_lock p
    /\ length (heap p) = length (heap p)
    /\ (forall b, b <> a -> heap p !! b = heap p !! b /\ calls_of b p = calls_of b p)
    /\ invocations a p <= invocations a p <= S (invocations a p))
    by (split_and!; try done; lia).
  assert (Hlog : forall r g,
    _instances (log_call a r g p) = _instances p
    /\ _instances_lock (log_call a r g p) = _instances_lock p
    /\ length (heap (log_call a r g p)) = length (heap p)
    /\ (forall b, b <> a ->
          heap (log_call a r g p) !! b = heap p !! b
          /\ calls_of b (log_call a r g p) = calls_of b p)
    /\ invocations a p <= invocations a (log_call a r g p) <= S (invocations a p)).
  { intros r g. split_and!; try done.
    - intros b Hne. split; [done|]. by apply calls_of_log_call_other.
    - unfold invocations. rewrite calls_of_log_call_same, length_app. cbn. lia.
    - unfold invocations. rewrite calls_of_log_call_same, length_app. cbn. lia. }
  destruct (heap p !! a) as [h|] eqn:Ha; [|done].
  destruct (is_none (_value h)); [|done].
  destruct (_lock h); [done|].
  destruct (_func h (globals p)) as [[v|e] g]; [|apply Hlog].
  destruct (is_none v); [apply Hlog|].
  destruct (Hlog (Returns v) g) as (H1 & H2 & H3 & H4 & H5).
  split_and!; try done.
  - unfold set_heap; cbn [heap]. by rewrite length_insert.
  - intros b Hne. destruct (H4 b Hne) as [H4a H4b]. split; [|done].
    unfold set_heap; cbn [heap log_call]. by rewrite list_lookup_insert_ne.
  - apply H5.
  - apply H5.
Qed.

(** *** Handles and registry entries *)

Lemma size_heap_exec c p :
  registry_inv tokenize p ->
  size (_instances p) = length (heap p) ->
  size (_instances (exec tokenize c p)) = length (heap (exec tokenize c p)).
Proof.
  intros Hinv Hsize.
  destruct (exec_cases tokenize c p Hinv)
    as [->|[(a'&r&g&->)|[(a'&h0&v&g&Ha'&->)|(k&func&Hk&->)]]]; try done.
  - unfold set_heap; cbn [heap _instances log_call]. by rewrite length_insert.
  - unfold register; cbn [heap _instances].
    rewrite map_size_insert_None by done. rewrite length_app. cbn. lia.
Qed.

Lemma size_heap_exec_all cs p :
  registry_inv tokenize p ->
  size (_instances p) = length (heap p) ->
  size (_instances (exec_all tokenize cs p))
  = length (heap (exec_all tokenize cs p)).
Proof.
  revert p. induction cs as [|c cs IH]; intros p Hinv Hsize; [done|].
  cbn [exec_all]. apply IH; [by apply registry_inv_exec|by apply size_heap_exec].
Qed.

(** X6: over every sequential history the registry and the heap are in one
    to one correspondence: there are as many entries as handles, every entry
    leads to a handle that carries the key as its token, and no two keys lead
    to the same handle. *)
Theorem registry_counts_handles cs (g : U) :
  let p := exec_all tokenize cs (fresh_process g) in
  size (_instances p) = length (heap p)
  /\ (forall k a, _instances p !! k = Some a ->
        exists h, heap p !! a = Some h /\ _token h = k)
  /\ (forall k1 k2 a,
        _instances p !! k1 = Some a -> _instances p !! k2 = Some a -> k1 = k2).
Proof.
  intros p. destruct (inv_history tokenize cs g) as [Hreg _]. fold p in Hreg.
  split_and!.
  - apply size_heap_exec_all; [apply registry_inv_fresh|done].
  - apply (inv_entries _ _ Hreg).
  - intros k1 k2 a (h1 & Ha1 & <-)%(inv_entries _ _ Hreg)
      (h2 & Ha2 & <-)%(inv_entries _ _ Hreg). congruence.
Qed.

Lemma get_value_other_handle p a b :
  b <> a -> heap (snd (_get_value a p)) !! b = heap p !! b.
Proof.
  intros Hne. rewrite get_value_state_any.
  destruct (heap p !! a) as [h|] eqn:Ha; [|done].
  destruct (is_none (_value h)); [|done]. destruct (_lock h); [done|].
  destruct (_func h (globals p)) as [[v|e] g]; [|done].
  destruct (is_none v); [done|].
  unfold set_heap; cbn [heap log_call]. by rewrite list_lookup_insert_ne.
Qed.

(** X7: two explicit tokens that differ give two handles, whatever the
    factories, and resolving the value of one leaves the other as it is. *)
Theorem distinct_tokens_distinct_handles cs (g : U) f1 f2 t1 t2 :
  let p := exec_all tokenize cs (fresh_process g) in
  let r1 := instance_for_function tokenize f1 (Some t1) p in
  let r2 := instance_for_function tokenize f2 (Some t2) (snd r1) in
  t1 <> "" -> t2 <> "" -> t1 <> t2 ->
  exists a1 a2,
    fst r1 = Ok a1 /\ fst r2 = Ok a2 /\ a1 <> a2
    /\ heap (snd (_get_value a1 (snd r2))) !! a2 = heap (snd r2) !! a2
    /\ heap (snd (_get_value a2 (snd r2))) !! a1 = heap (snd r2) !! a1.
Proof.
  intros p r1 r2 Ht1 Ht2 Hne.
  destruct (inv_history tokenize cs g) as [Hreg _]. fold p in Hreg.
  assert (Hres : forall f t, t <> "" -> resolve_token tokenize f (Some t) = t).
  { intros f t Ht. unfold resolve_token. by destruct t. }
  assert (Hcall : forall q f t, registry_inv tokenize q -> t <> "" ->
            exists a,
              fst (instance_for_function tokenize f (Some t) q) = Ok a
              /\ _instances (snd (instance_for_function tokenize f (Some t) q)) !! t
                 = Some a).
  { intros q f t Hq Ht. rewrite (instance_for_function_free tokenize q) by apply Hq.
    rewrite (Hres f t Ht). destruct (_instances q !! t) as [a|] eqn:Hk.
    - by exists a.
    - exists (length (heap q)). split; [done|].
      unfold register; cbn [snd _instances]. apply lookup_insert_eq. }
  assert (Hreg1 : registry_inv tokenize (snd r1))
    by apply (registry_inv_exec tokenize
                (Call_instance_for_function f1 (Some t1)) p Hreg).
  assert (Hreg2 : registry_inv tokenize (snd r2))
    by apply (registry_inv_exec tokenize
                (Call_instance_for_function f2 (Some t2)) (snd r1) Hreg1).
  destruct (Hcall p f1 t1 Hreg Ht1) as (a1 & Hr1 & Hk1). fold r1 in Hr1, Hk1.
  destruct (Hcall (snd r1) f2 t2 Hreg1 Ht2) as (a2 & Hr2 & Hk2).
  fold r2 in Hr2, Hk2.
  pose proof (exec_keeps_entry tokenize
                (Call_instance_for_function f2 (Some t2)) (snd r1) t1 a1
                Hreg1 Hk1) as Hk1'.
  cbn [exec] in Hk1'. fold r2 in Hk1'.
  assert (Hdiff : a1 <> a2).
  { intros ->.
    destruct (inv_entries _ _ Hreg2 _ _ Hk1') as (h1 & Hh1 & Htok1).
    destruct (inv_entries _ _ Hreg2 _ _ Hk2) as (h2 & Hh2 & Htok2).
    congruence. }
  exists a1, a2. split_and!; try done.
  - by apply get_value_other_handle.
  - by apply get_value_other_handle.
Qed.

(** X8: no call leaves a lock behind. After every sequential history, also
    one in which factories raised or returned [None], the registry lock and
    the lock of every handle are free. *)
Theorem locks_free_after_every_history cs (g : U) :
  let p := exec_all tokenize cs (fresh_process g) in
  _instances_lock p = false
  /\ forall a h, heap p !! a = Some h -> _lock h = false.
Proof.
  intros p. destruct (inv_history tokenize cs g) as [Hreg _]. fold p in Hreg.
  split; [apply Hreg|apply (inv_locks _ _ Hreg)].
Qed.

(** X9: over every sequential history the slot of a handle and the log of
    its factory agree. A populated slot holds what the last invocation
    returned, and every earlier invocation raised or returned [None]; while
    the slot is empty every invocation so far has failed in that way. *)
Theorem slot_holds_last_result cs (g : U) a h :
  let p := exec_all tokenize cs (fresh_process g) in
  heap p !! a = Some h ->
  (is_none (_value h) = false ->
   exists pre locked,
     calls_of a p = (pre ++ [mkCall a locked (Returns (_value h))])%list
     /\ all_failed pre = true)
  /\ (is_none (_value h) = true -> all_failed (calls_of a p) = true).
Proof.
  intros p Ha. destruct (inv_history tokenize cs g) as [_ [_ Hlog]].
  specialize (Hlog a). fold p in Hlog. unfold handle_log_inv in Hlog.
  rewrite Ha in Hlog. split; intros Hv; by rewrite Hv in Hlog.
Qed.

(** X10: a pickled handle loaded in any process, this one or another, goes
    through the registry of that process: it is the handle registered there
    under the token, or else a new handle with the factory and the token of
    the original, an empty slot and a free lock. What the slot of the
    original holds plays no part. *)
Theorem unpickle_goes_through_registry cs (g : U) a h q :
  let p := exec_all tokenize cs (fresh_process g) in
  heap p !! a = Some h -> _instances_lock q = false ->
  exists r,
    fst (__reduce__ a p) = Ok r
    /\ unpickle tokenize r q =
         match _instances q !! _token h with
         | Some b => (Ok b, q)
         | None =>
             (Ok (length (heap q)),
              mkProcess
                (heap q ++ [mkOncePerWorker (_func h) (_token h) false PyNone])
                (<[_token h := length (heap q)]> (_instances q))
                false (globals q) (calls q))
         end.
Proof.
  intros p Ha Hq. destruct (inv_history tokenize cs g) as [Hreg _].
  fold p in Hreg.
  exists (mkReduced InstanceForFunction (_func h, _token h)). split.
  - unfold __reduce__. by rewrite (bind_Ok _ _ _ _ _ (load_Some _ _ _ Ha)).
  - unfold unpickle; cbn [red_callable red_args fst snd].
    rewrite (instance_for_function_free tokenize q) by done.
    rewrite (inv_token _ _ Hreg _ _ Ha).
    destruct (_instances q !! _token h); [done|].
    unfold register. by rewrite Hq.
Qed.

End SequentialMore.

(** * Further properties of concurrent callers of [_get_value] *)

Section ConcurrentMore.

Context {U : Type}.

Implicit Types (p : @Process U) (h : @OncePerWorker U) (c : @config U)
  (self : addr) (t : pc) (ts : list pc).

Lemma run_mutex self sched c c' :
  mutex_inv self c -> run self sched c = Some c' ->
  mutex_inv self c' /\ length (fst c') = length (fst c).
Proof.
  revert c. induction sched as [|i sched IH]; intros c Hmx; cbn [run].
  - by intros [= <-].
  - destruct (sched_step self i c) as [c1|] eqn:Hs; [|done]. intros Hrun.
    destruct (IH c1) as [Hmx' Hlen]; [by eapply mutex_inv_step|done|].
    split; [done|]. rewrite Hlen.
    apply sched_step_inv in Hs as (t & t' & _ & _ & ->). apply length_insert.
Qed.

(** X11: whatever the factory does (return, return [None], raise), under
    every schedule at most one thread is inside the [with self._lock] block,
    the callers cannot deadlock (while one is not back, some thread can
    move), and no schedule has more than [8 * n] steps, so every caller gets
    back. *)
Theorem concurrent_callers_exclude_each_other self n p0 h sched c :
  heap p0 !! self = Some h -> _lock h = false ->
  run self sched (spawn n p0) = Some c ->
  (forall i j ti tj,
     fst c !! i = Some ti -> fst c !! j = Some tj ->
     holds_lock ti = true -> holds_lock tj = true -> i = j)
  /\ (forallb is_done (fst c) = false ->
      exists i c', sched_step self i c = Some c')
  /\ length (fst c) = n
  /\ length sched <= 8 * n.
Proof.
  intros Ha Hl Hrun.
  destruct (run_mutex self sched (spawn n p0) c) as [Hmx Hlen];
    [by eapply mutex_inv_spawn|done|].
  split_and!.
  - intros i j ti tj Hi Hj Hhi Hhj. destruct c as [ts p].
    destruct (mutex_inv_holder _ _ _ _ _ Hmx Hi Hhi) as (_ & _ & _ & Hothers).
    destruct (decide (j = i)) as [->|Hne]; [done|].
    pose proof (Hothers _ _ Hj Hne). congruence.
  - by apply mutex_inv_progress.
  - rewrite Hlen. unfold spawn. cbn [fst]. apply length_replicate.
  - apply run_length in Hrun. rewrite measure_spawn in Hrun. lia.
Qed.

(** X12: readers of a populated slot never wait. When the slot already
    holds a value, under every schedule, and even while the lock of the
    handle is held, the process stays as it is (no lock is taken, no factory
    runs), every thread is at its first statement or back with the cached
    value, and every thread that is not back can move. *)
Theorem concurrent_readers_never_wait self n p0 h sched c :
  heap p0 !! self = Some h -> is_none (_value h) = false ->
  run self sched (spawn n p0) = Some c ->
  snd c = p0
  /\ Forall (fun t => t = AtFastCheck \/ t = Done (Returns (_value h))) (fst c)
  /\ (forall i t, fst c !! i = Some t -> is_done t = false ->
        exists c', sched_step self i c = Some c').
Proof.
  intros Ha Hv Hrun.
  assert (Hinv : snd c = p0
    /\ Forall (fun t => t = AtFastCheck \/ t = Done (Returns (_value h))) (fst c)).
  { assert (Hstart : snd (spawn n p0) = p0
      /\ Forall (fun t => t = AtFastCheck \/ t = Done (Returns (_value h)))
           (fst (spawn n p0))).
    { split; [done|]. apply Forall_forall.
      intros t [-> _]%elem_of_replicate. by left. }
    revert Hrun Hstart. generalize (spawn n p0). clear n.
    induction sched as [|i sched IH]; intros c0; cbn [run].
    - by intros [= <-].
    - destruct (sched_step self i c0) as [c1|] eqn:Hs; [|done].
      intros Hrun [Hp Hall]. apply (IH c1 Hrun).
      apply sched_step_inv in Hs as (t & t' & Hi & Hs & Hts).
      rewrite Hp in Hs. rewrite (thread_step_Some _ _ _ _ Ha) in Hs.
      destruct (Forall_lookup_1 _ _ _ _ Hall Hi) as [->| ->]; [|done].
      rewrite Hv in Hs. injection Hs as <- <-. split; [done|].
      rewrite Hts. apply Forall_insert; [done|]. by right. }
  destruct Hinv as [Hp Hall]. split_and!; try done.
  intros i t Hi Hd. unfold sched_step. rewrite Hi, Hp.
  rewrite (thread_step_Some _ _ _ _ Ha).
  destruct (Forall_lookup_1 _ _ _ _ Hall Hi) as [->| ->]; [|done].
  eauto.
Qed.

Lemma sum_list_insert (f : pc -> nat) ts i t t' :
  ts !! i = Some t ->
  sum_list (f <$> <[i := t']> ts) + f t = sum_list (f <$> ts) + f t'.
Proof.
  revert i. induction ts as [|t0 ts IH]; intros [|i] Hi; try done.
  - injection Hi as ->.
    change (f t' + sum_list (f <$> ts) + f t = f t + sum_list (f <$> ts) + f t').
    lia.
  - specialize (IH i Hi).
    change (f t0 + sum_list (f <$> <[i:=t']> ts) + f t
            = f t0 + sum_list (f <$> ts) + f t').
    lia.
Qed.

Lemma raising_inv_step self func n0 i c c' :
  (forall g, exists e g', func g = (Raises e, g')) ->
  raising_inv self func n0 c -> sched_step self i c = Some c' ->
  raising_inv self func n0 c'.
Proof.
  intros Hfunc (h & Ha & Hf & Hv & Hall & Hn) (t & t' & Hi & Hs & Hts)%sched_step_inv.
  destruct c as [ts p], c' as [ts' p']. cbn [fst snd] in *. subst ts'.
  pose proof (lookup_lt_Some _ _ _ Ha) as Hlt.
  pose proof (Forall_lookup_1 _ _ _ _ Hall Hi) as Ht.
  pose proof (sum_list_insert has_raised ts i t t' Hi) as Hsum.
  rewrite (thread_step_Some _ _ _ _ Ha) in Hs.
  unfold raising_inv. cbn [fst snd].
  destruct t as [| | | |r| | |[v|e]|[v|e]]; try done.
  - rewrite Hv in Hs. injection Hs as <- <-. exists h.
    split_and!; try done; [by apply Forall_insert|]. cbn [has_raised] in Hsum. lia.
  - destruct (_lock h); [done|]. injection Hs as <- <-.
    exists (set_lock true h). split_and!; try done.
    + by apply list_lookup_insert_eq.
    + by apply Forall_insert.
    + change (invocations self (set_heap _ p)) with (invocations self p).
      cbn [has_raised] in Hsum. lia.
  - rewrite Hv in Hs. injection Hs as <- <-. exists h.
    split_and!; try done; [by apply Forall_insert|]. cbn [has_raised] in Hsum. lia.
  - rewrite Hf in Hs. destruct (Hfunc (globals p)) as (e & g' & Hcall).
    rewrite Hcall in Hs. injection Hs as <- <-. exists h.
    split_and!; try done; [by apply Forall_insert|].
    unfold invocations. rewrite calls_of_log_call_same, length_app.
    unfold invocations in Hn. cbn [has_raised length] in Hsum |- *. lia.
  - injection Hs as <- <-. exists (set_lock false h). split_and!; try done.
    + by apply list_lookup_insert_eq.
    + by apply Forall_insert.
    + change (invocations self (set_heap _ p)) with (invocations self p).
      cbn [has_raised] in Hsum. lia.
Qed.

Lemma raising_inv_run self func n0 sched c c' :
  (forall g, exists e g', func g = (Raises e, g')) ->
  raising_inv self func n0 c -> run self sched c = Some c' ->
  raising_inv self func n0 c'.
Proof.
  intros Hfunc. revert c. induction sched as [|i sched IH]; intros c Hinv; cbn [run].
  - by intros [= <-].
  - destruct (sched_step self i c) as [c1|] eqn:Hs; [|done].
    apply IH. by eapply raising_inv_step.
Qed.

Lemma sum_has_raised_done ts :
  forallb is_done ts = true -> sum_list (has_raised <$> ts) = length ts.
Proof.
  induction ts as [|t ts IH]; [done|]. cbn [forallb].
  intros [Hd Hall]%andb_true_iff. specialize (IH Hall).
  change (has_raised t + sum_list (has_raised <$> ts) = S (length ts)).
  destruct t; try done. cbn. lia.
Qed.

(** X13: a factory that raises poisons nothing, also under concurrency.
    When every invocation raises, under every schedule the slot stays empty
    and the factory has been invoked once for each thread that has got its
    exception; when all [n] threads are back, each of them came back with an
    exception and the factory has been invoked exactly [n] more times. *)
Theorem concurrent_callers_of_raising_factory self n p0 h sched c :
  heap p0 !! self = Some h -> _lock h = false -> _value h = PyNone ->
  (forall g, exists e g', _func h g = (Raises e, g')) ->
  run self sched (spawn n p0) = Some c ->
  (exists h', heap (snd c) !! self = Some h' /\ _value h' = PyNone)
  /\ invocations self (snd c)
     = invocations self p0 + sum_list (has_raised <$> fst c)
  /\ (forallb is_done (fst c) = true ->
      invocations self (snd c) = invocations self p0 + n
      /\ Forall (fun t => exists e, t = Done (Raises e)) (fst c)).
Proof.
  intros Ha Hl Hv Hfunc Hrun.
  assert (Hstart : raising_inv self (_func h) (invocations self p0) (spawn n p0)).
  { exists h. split_and!; try done.
    - apply Forall_forall. by intros t [-> _]%elem_of_replicate.
    - unfold spawn. cbn [fst snd]. clear. induction n as [|n IH]; [cbn; lia|].
      change (sum_list (has_raised <$> replicate (S n) AtFastCheck))
        with (0 + sum_list (has_raised <$> replicate n AtFastCheck)). lia. }
  pose proof (raising_inv_run _ _ _ _ _ _ Hfunc Hstart Hrun)
    as (h' & Ha' & _ & Hv' & Hall & Hn).
  assert (Hlen : length (fst c) = n).
  { destruct (run_mutex self sched (spawn n p0) c) as [_ Hlen];
      [by eapply mutex_inv_spawn|done|].
    rewrite Hlen. unfold spawn. cbn [fst]. apply length_replicate. }
  split_and!; [eauto|done|].
  intros Hdone. split.
  - by rewrite Hn, (sum_has_raised_done _ Hdone), Hlen.
  - apply Forall_lookup_2. intros i t Hi.
    destruct (forallb_is_done_lookup _ _ _ Hdone Hi) as [o ->].
    pose proof (Forall_lookup_1 _ _ _ _ Hall Hi) as Hok.
    destruct o as [v|e]; [done|eauto].
Qed.

End ConcurrentMore.

(** * Concurrent callers of [instance_for_function] *)

Section ConcurrentRegistry.

Context {U : Type} (tokenize : @Factory U -> string).

Implicit Types (p : @Process U) (h : @OncePerWorker U) (c : @iconfig U)
  (th : @caller U) (ts : list (@caller U)) (t : ipc).

(** *** One statement of one caller *)

Lemma caller_step_cases th p t' p' :
  caller_step th p = Some (t', p') ->
  (c_pc th = IAtAcquire /\ _instances_lock p = false
   /\ t' = IAtLookup /\ p' = set_instances_lock true p)
  \/ (c_pc th = IAtLookup /\ p' = p
      /\ t' = match _instances p !! c_token_ th with
              | Some a => IAtRelease a
              | None => IAtCreate
              end)
  \/ (c_pc th = IAtCreate /\ t' = IAtInsert (length (heap p))
      /\ p' = set_heap
                (heap p ++ [mkOncePerWorker (c_func th) (c_token_ th) false PyNone])
                p)
  \/ (exists a, c_pc th = IAtInsert a /\ t' = IAtRelease a
      /\ p' = mkProcess (heap p) (<[c_token_ th := a]> (_instances p))
                (_instances_lock p) (globals p) (calls p))
  \/ (exists a, c_pc th = IAtRelease a /\ t' = IDone a
      /\ p' = set_instances_lock false p).
Proof.
  unfold caller_step. destruct (c_pc th) as [| | |a|a|a]; unfold istmt.
  - unfold acquire_instances_lock. destruct (_instances_lock p); [done|].
    intros [= <- <-]. by left.
  - intros [= <- <-]. right; left. done.
  - intros [= <- <-]. right; right; left. done.
  - intros [= <- <-]. right; right; right; left. by exists a.
  - intros [= <- <-]. right; right; right; right. by exists a.
  - done.
Qed.

Lemma isched_step_inv i c c' :
  isched_step i c = Some c' ->
  exists th t',
    fst c !! i = Some th
    /\ caller_step th (snd c) = Some (t', snd c')
    /\ fst c' = <[i := set_pc t' th]> (fst c).
Proof.
  unfold isched_step. destruct (fst c !! i) as [th|]; [|done].
  destruct (caller_step th (snd c)) as [[t' p']|] eqn:Hs; [|done].
  intros [= <-]. by exists th, t'.
Qed.

Lemma caller_step_weight th p t' p' :
  caller_step th p = Some (t', p') -> iweight t' < iweight (c_pc th).
Proof.
  intros [(-> & _ & -> & _)|[(-> & _ & ->)|[(-> & -> & _)
         |[(a & -> & -> & _)|(a & -> & -> & _)]]]]%caller_step_cases;
    cbn; try lia.
  destruct (_instances p !! c_token_ th); cbn; lia.
Qed.

Lemma sum_iweight_insert ts i th th' :
  ts !! i = Some th -> iweight (c_pc th') < iweight (c_pc th) ->
  sum_list ((fun x => iweight (c_pc x)) <$> <[i := th']> ts)
  < sum_list ((fun x => iweight (c_pc x)) <$> ts).
Proof.
  revert i. induction ts as [|t0 ts IH]; intros [|i] Hi Hw; try done.
  - injection Hi as ->.
    change (iweight (c_pc th') + sum_list ((fun x => iweight (c_pc x)) <$> ts)
            < iweight (c_pc th) + sum_list ((fun x => iweight (c_pc x)) <$> ts)).
    lia.
  - specialize (IH i Hi Hw).
    change (iweight (c_pc t0)
            + sum_list ((fun x => iweight (c_pc x)) <$> <[i:=th']> ts)
            < iweight (c_pc t0) + sum_list ((fun x => iweight (c_pc x)) <$> ts)).
    lia.
Qed.

Lemma isched_step_measure i c c' :
  isched_step i c = Some c' -> imeasure c' < imeasure c.
Proof.
  intros (th & t' & Hi & Hs & Heq)%isched_step_inv. unfold imeasure. rewrite Heq.
  eapply sum_iweight_insert; [done|]. cbn. by eapply caller_step_weight.
Qed.

Lemma irun_length sched c c' :
  irun sched c = Some c' ->
  length sched + imeasure c' <= imeasure c /\ length (fst c') = length (fst c).
Proof.
  revert c. induction sched as [|i sched IH]; intros c; cbn [irun length].
  - intros [= <-]. split; [lia|done].
  - destruct (isched_step i c) as [c1|] eqn:Hs; [|done]. intros Hrun.
    apply IH in Hrun as [Hm Hlen]. pose proof (isched_step_measure _ _ _ Hs).
    split; [lia|]. rewrite Hlen.
    apply isched_step_inv in Hs as (th & t' & _ & _ & ->). apply length_insert.
Qed.

Lemma imeasure_spawn args p :
  imeasure (ispawn tokenize args p) = 5 * length args.
Proof.
  unfold imeasure, ispawn. cbn [fst]. induction args as [|arg args IH]; [done|].
  rewrite !fmap_cons. cbn [length].
  change (5 + sum_list ((fun th => iweight (c_pc th)) <$>
            ((fun arg => mkCaller (fst arg)
                (resolve_token tokenize (fst arg) (snd arg)) IAtAcquire) <$> args))
          = 5 * S (length args)).
  lia.
Qed.

(** *** Mutual exclusion on the registry lock *)

Lemma imutex_inv_spawn args p :
  _instances_lock p = false -> imutex_inv (ispawn tokenize args p).
Proof.
  intros Hl. unfold imutex_inv, ispawn. cbn [fst snd]. rewrite Hl.
  intros j thj (arg & -> & _)%list_lookup_fmap_Some. done.
Qed.

Lemma imutex_inv_step i c c' :
  imutex_inv c -> isched_step i c = Some c' -> imutex_inv c'.
Proof.
  intros Hmx (th & t' & Hi & Hs & Hts)%isched_step_inv.
  destruct c as [ts p], c' as [ts' p']. unfold imutex_inv in *.
  cbn [fst snd] in *. subst ts'.
  pose proof (lookup_lt_Some _ _ _ Hi) as Hlt.
  assert (Hshape :
    (iholds t' = iholds (c_pc th) /\ _instances_lock p' = _instances_lock p)
    \/ (iholds (c_pc th) = false /\ iholds t' = true
        /\ _instances_lock p = false /\ _instances_lock p' = true)
    \/ (iholds (c_pc th) = true /\ iholds t' = false
        /\ _instances_lock p' = false)).
  { destruct (caller_step_cases _ _ _ _ Hs)
      as [(-> & Hl & -> & ->)|[(-> & -> & ->)|[(-> & -> & ->)
         |[(a & -> & -> & ->)|(a & -> & -> & ->)]]]].
    - right; left. done.
    - left. split; [|done]. by destruct (_instances p !! c_token_ th).
    - left. done.
    - left. done.
    - right; right. done. }
  destruct Hshape as [[Hh Hl']|[(Hh & Hh' & Hl & Hl')|(Hh & Hh' & Hl')]];
    rewrite Hl'.
  - destruct (_instances_lock p).
    + destruct Hmx as (i0 & t0 & Hi0 & Hh0 & Huniq).
      destruct (decide (i = i0)) as [->|Hne].
      * exists i0, (set_pc t' th). rewrite list_lookup_insert_eq by done.
        rewrite Hi in Hi0. injection Hi0 as ->.
        split_and!; [done|cbn; congruence|].
        intros j tj [(<- & _)|[_ Hj]]%list_lookup_insert_Some Hhj; [done|eauto].
      * exists i0, t0. rewrite list_lookup_insert_ne by done.
        split_and!; [done..|].
        intros j tj [(<- & <- & _)|[_ Hj]]%list_lookup_insert_Some Hhj; [|eauto].
        cbn in Hhj. rewrite Hh in Hhj. by apply (Huniq i th).
    + intros j tj [(<- & <- & _)|[_ Hj]]%list_lookup_insert_Some; [|eauto].
      cbn. rewrite Hh. eauto.
  - rewrite Hl in Hmx. exists i, (set_pc t' th).
    rewrite list_lookup_insert_eq by done. split_and!; [done..|].
    intros j tj [(<- & _)|[_ Hj]]%list_lookup_insert_Some Hhj; [done|].
    apply Hmx in Hj. congruence.
  - intros j tj [(<- & <- & _)|[Hne Hj]]%list_lookup_insert_Some; [done|].
    destruct (_instances_lock p).
    + destruct Hmx as (i0 & t0 & Hi0 & Hh0 & Huniq).
      destruct (iholds (c_pc tj)) eqn:Hhj; [|done].
      pose proof (Huniq _ _ Hi Hh). pose proof (Huniq _ _ Hj Hhj). congruence.
    + apply Hmx in Hi. congruence.
Qed.

(** A caller inside the block has the registry lock to itself. *)
Lemma imutex_inv_holder ts p i th :
  imutex_inv (ts, p) -> ts !! i = Some th -> iholds (c_pc th) = true ->
  _instances_lock p = true
  /\ forall j thj, ts !! j = Some thj -> j <> i -> iholds (c_pc thj) = false.
Proof.
  unfold imutex_inv. cbn [fst snd]. intros Hmx Hi Hh.
  destruct (_instances_lock p).
  - split; [done|]. destruct Hmx as (i0 & t0 & Hi0 & Hh0 & Huniq).
    intros j tj Hj Hne. destruct (iholds (c_pc tj)) eqn:Hhj; [|done].
    pose proof (Huniq _ _ Hi Hh). pose proof (Huniq _ _ Hj Hhj). congruence.
  - apply Hmx in Hi. congruence.
Qed.

Lemma imutex_inv_progress c :
  imutex_inv c -> forallb iis_done (fst c) = false ->
  exists i c', isched_step i c = Some c'.
Proof.
  intros Hmx Hnd.
  assert (Hrun : forall i th, fst c !! i = Some th ->
            is_Some (caller_step th (snd c)) ->
            exists i c', isched_step i c = Some c').
  { intros i th Hi [[t' p'] Hs]. exists i. unfold isched_step.
    rewrite Hi, Hs. eauto. }
  unfold imutex_inv in Hmx. destruct (_instances_lock (snd c)) eqn:Hl.
  - destruct Hmx as (i0 & t0 & Hi0 & Hh0 & _). eapply Hrun; [done|].
    unfold caller_step, istmt. by destruct (c_pc t0).
  - assert (Hex : exists i th, fst c !! i = Some th /\ iis_done th = false).
    { clear -Hnd. induction (fst c) as [|t ts IH]; [done|]. cbn in Hnd.
      destruct (iis_done t) eqn:Hd.
      - destruct (IH Hnd) as (i & t1 & Hi & Hd1). by exists (S i), t1.
      - by exists 0, t. }
    destruct Hex as (i & th & Hi & Hd). eapply Hrun; [done|].
    pose proof (Hmx _ _ Hi) as Hh.
    unfold caller_step, istmt, iis_done in *.
    destruct (c_pc th); try done. unfold acquire_instances_lock.
    by rewrite Hl.
Qed.

(** *** The registry while callers are at work *)

Lemma ireg_inv_spawn args p :
  registry_inv tokenize p -> ireg_inv tokenize (ispawn tokenize args p).
Proof.
  intros [I1 I2 I3 I4 I5]. split; unfold ispawn; cbn [fst snd]; try done.
  - intros a h Ha. split; [by eapply I5|]. left. by apply I3.
  - intros j thj (arg & -> & _)%list_lookup_fmap_Some. split; [|done].
    cbn. apply resolve_token_idem.
Qed.

Lemma ireg_inv_step i c c' :
  imutex_inv c -> ireg_inv tokenize c -> isched_step i c = Some c' ->
  ireg_inv tokenize c'.
Proof.
  intros Hmx [L E H C] (th & t' & Hi & Hs & Hts)%isched_step_inv.
  destruct c as [ts p], c' as [ts' p']. cbn [fst snd] in *. subst ts'.
  pose proof (lookup_lt_Some _ _ _ Hi) as Hlt.
  destruct (C _ _ Hi) as [Hres Hok].
  assert (Hlook : forall j thj,
            <[i := set_pc t' th]> ts !! j = Some thj ->
            (j = i /\ thj = set_pc t' th) \/ (j <> i /\ ts !! j = Some thj)).
  { intros j thj [(<- & <- & _)|[Hne Hj]]%list_lookup_insert_Some; [by left|].
    right. split; [congruence|done]. }
  assert (Hwit : forall a j thj,
            ts !! j = Some thj -> c_pc thj = IAtInsert a ->
            (forall b, c_pc th <> IAtInsert b) ->
            <[i := set_pc t' th]> ts !! j = Some thj).
  { intros a j thj Hj Hpc Hth. rewrite list_lookup_insert_ne; [done|].
    intros <-. rewrite Hi in Hj. injection Hj as <-. by eapply Hth. }
  assert (Hsame : forall b0 : nat, (forall b, c_pc th <> IAtInsert b) ->
            forall a h, heap p !! a = Some h ->
              resolve_token tokenize (_func h) (Some (_token h)) = _token h
              /\ (_instances p !! _token h = Some a
                  \/ (_instances p !! _token h = None
                      /\ exists j thj,
                           <[i := set_pc t' th]> ts !! j = Some thj
                           /\ c_pc thj = IAtInsert a
                           /\ c_token_ thj = _token h))).
  { intros b0 Hth a h Ha.
    destruct (H a h Ha) as [Hr [Hreg|(Hnone & j & thj & Hj & Hpc & Htok)]];
      (split; [done|]); [by left|right].
    split; [done|]. exists j, thj. split_and!; try done.
    by apply (Hwit a). }
  destruct (caller_step_cases _ _ _ _ Hs)
    as [(Hpc & Hl & -> & ->)|[(Hpc & -> & ->)|[(Hpc & -> & ->)
       |[(a & Hpc & -> & ->)|(a & Hpc & -> & ->)]]]];
    rewrite Hpc in Hok.
  - (* entering the block *)
    split; cbn [fst snd]; try done.
    + apply (Hsame 0). intros b. congruence.
    + intros j thj [[-> ->]|[Hne Hj]]%Hlook; [by split|]. apply (C _ _ Hj).
  - (* the lookup *)
    split; cbn [fst snd]; try done.
    + apply (Hsame 0). intros b. congruence.
    + intros j thj [[-> ->]|[Hne Hj]]%Hlook; [|apply (C _ _ Hj)].
      split; [done|]. cbn. by destruct (_instances p !! c_token_ th) eqn:Hk.
  - (* the new object *)
    destruct (imutex_inv_holder _ _ _ _ Hmx Hi) as [_ Hothers];
      [by rewrite Hpc|].
    split; unfold set_heap; cbn [fst snd heap _instances].
    + intros a h [[_ Ha]|[_ <-]]%lookup_snoc_Some; [eauto|done].
    + intros k a (h & Ha & Hk)%E. exists h. split; [|done].
      by apply lookup_app_l_Some.
    + intros a h [[_ Ha]|[-> <-]]%lookup_snoc_Some.
      * destruct (H a h Ha) as [Hr [Hreg|(Hnone & j & thj & Hj & Hpcj & Htok)]];
          (split; [done|]); [by left|].
        destruct (decide (j = i)) as [->|Hne].
        -- rewrite Hi in Hj. injection Hj as <-. congruence.
        -- pose proof (Hothers _ _ Hj Hne) as Hh. by rewrite Hpcj in Hh.
      * split; [done|]. right. split; [done|].
        exists i, (set_pc (IAtInsert (length (heap p))) th).
        split_and!; try done. by apply list_lookup_insert_eq.
    + intros j thj [[-> ->]|[Hne Hj]]%Hlook.
      * split; [done|]. cbn. split; [done|].
        apply lookup_snoc_Some. by right.
      * destruct (C _ _ Hj) as [Hrj Hokj]. split; [done|].
        destruct (c_pc thj); try done. destruct Hokj as [Hn Hb].
        split; [done|]. by apply lookup_app_l_Some.
  - (* the new entry *)
    destruct Hok as [Hnone Hnew].
    destruct (imutex_inv_holder _ _ _ _ Hmx Hi) as [_ Hothers];
      [by rewrite Hpc|].
    split; cbn [fst snd heap _instances]; try done.
    + intros k b [[<- <-]|[Hne Hb]]%lookup_insert_Some; [eauto|by apply E].
    + intros b hb Hb.
      destruct (H b hb Hb) as [Hr [Hreg|(Hn & j & thj & Hj & Hpcj & Htok)]];
        (split; [done|]); left.
      * rewrite lookup_insert_ne; [done|]. congruence.
      * destruct (decide (j = i)) as [->|Hne].
        -- rewrite Hi in Hj. injection Hj as <-. rewrite Hpc in Hpcj.
           injection Hpcj as ->. rewrite <- Htok. apply lookup_insert_eq.
        -- pose proof (Hothers _ _ Hj Hne) as Hh. by rewrite Hpcj in Hh.
    + intros j thj [[-> ->]|[Hne Hj]]%Hlook.
      * split; [done|]. cbn. apply lookup_insert_eq.
      * destruct (C _ _ Hj) as [Hrj Hokj]. split; [done|].
        pose proof (Hothers _ _ Hj Hne) as Hh.
        destruct (c_pc thj); try done. cbn [_instances].
        rewrite lookup_insert_ne; [done|]. congruence.
  - (* leaving the block *)
    split; cbn [fst snd]; try done.
    + apply (Hsame 0). intros b. congruence.
    + intros j thj [[-> ->]|[Hne Hj]]%Hlook; [by split|]. apply (C _ _ Hj).
Qed.

Lemma iframe_step p0 i c c' :
  iframe p0 c -> isched_step i c = Some c' -> iframe p0 c'.
Proof.
  intros (Hc & Hg & Hh) (th & t' & Hi & Hs & Hts)%isched_step_inv.
  destruct c as [ts p], c' as [ts' p']. unfold iframe. cbn [fst snd] in *.
  destruct (caller_step_cases _ _ _ _ Hs)
    as [(Hpc & Hl & -> & ->)|[(Hpc & -> & ->)|[(Hpc & -> & ->)
       |[(a & Hpc & -> & ->)|(a & Hpc & -> & ->)]]]]; try done.
  split_and!; try done. intros a h Ha. unfold set_heap; cbn [heap].
  apply lookup_app_l_Some. by apply Hh.
Qed.

Lemma callers_step i c c' :
  isched_step i c = Some c' ->
  set_pc IAtAcquire <$> fst c' = set_pc IAtAcquire <$> fst c.
Proof.
  intros (th & t' & Hi & Hs & ->)%isched_step_inv.
  rewrite list_fmap_insert. apply list_insert_id.
  by rewrite list_lookup_fmap, Hi.
Qed.

Lemma irun_inv p0 sched c c' :
  imutex_inv c -> ireg_inv tokenize c -> iframe p0 c ->
  irun sched c = Some c' ->
  imutex_inv c' /\ ireg_inv tokenize c' /\ iframe p0 c'
  /\ set_pc IAtAcquire <$> fst c' = set_pc IAtAcquire <$> fst c.
Proof.
  revert c. induction sched as [|i sched IH]; intros c Hmx Hreg Hfr; cbn [irun].
  - by intros [= <-].
  - destruct (isched_step i c) as [c1|] eqn:Hs; [|done]. intros Hrun.
    destruct (IH c1) as (Hmx' & Hreg' & Hfr' & Hcs);
      [by eapply imutex_inv_step|by eapply ireg_inv_step
      |by eapply iframe_step|done|].
    split_and!; try done. rewrite Hcs. by eapply callers_step.
Qed.

(** When no caller is inside the block the sequential invariant holds. *)
Lemma ireg_inv_quiescent c :
  imutex_inv c -> ireg_inv tokenize c ->
  (forall i th, fst c !! i = Some th -> iholds (c_pc th) = false) ->
  registry_inv tokenize (snd c).
Proof.
  intros Hmx [L E H C] Hout. split; try done.
  - unfold imutex_inv in Hmx. destruct (_instances_lock (snd c)); [|done].
    destruct Hmx as (i & th & Hi & Hh & _). apply Hout in Hi. congruence.
  - intros a h Ha.
    destruct (H a h Ha) as [_ [Hreg|(_ & j & thj & Hj & Hpc & _)]]; [done|].
    apply Hout in Hj. by rewrite Hpc in Hj.
  - intros a h Ha. by destruct (H a h Ha).
Qed.

(** *** One caller on its own *)

Lemma irun_cons i sched ts p th t' p' c :
  ts !! i = Some th -> caller_step th p = Some (t', p') ->
  irun sched (<[i := set_pc t' th]> ts, p') = Some c ->
  irun (i :: sched) (ts, p) = Some c.
Proof.
  intros Hi Hs Hrun. cbn [irun]. unfold isched_step. cbn [fst snd].
  by rewrite Hi, Hs.
Qed.

(** A caller that runs alone ends where [instance_for_function] ends: same
    handle, same process. *)
Lemma solo_caller_agrees p func token :
  _instances_lock p = false ->
  exists sched a p',
    irun sched (ispawn tokenize [(func, token)] p)
    = Some ([mkCaller func (resolve_token tokenize func token) (IDone a)], p')
    /\ instance_for_function tokenize func token p = (Ok a, p').
Proof.
  intros Hl. rewrite (instance_for_function_free tokenize p) by done.
  unfold ispawn. cbn [fmap list_fmap fst snd].
  set (k := resolve_token tokenize func token).
  assert (Hback : set_instances_lock false (set_instances_lock true p) = p).
  { destruct p; cbn in *; by subst. }
  destruct (_instances p !! k) as [a|] eqn:Hk.
  - exists [0; 0; 0], a, p. split; [|done].
    eapply irun_cons; [done| |].
    { unfold caller_step, istmt, acquire_instances_lock. cbn [c_pc].
      by rewrite Hl. }
    eapply irun_cons; [done| |].
    { unfold caller_step, istmt, lookup_instance. cbn [c_pc set_pc c_token_].
      cbn [_instances set_instances_lock]. by rewrite Hk. }
    eapply irun_cons; [done|done|].
    cbn [irun insert list_insert set_pc c_func c_token_]. by rewrite Hback.
  - exists [0; 0; 0; 0; 0], (length (heap p)), (register k func p).
    split; [|done].
    eapply irun_cons; [done| |].
    { unfold caller_step, istmt, acquire_instances_lock. cbn [c_pc].
      by rewrite Hl. }
    eapply irun_cons; [done| |].
    { unfold caller_step, istmt, lookup_instance. cbn [c_pc set_pc c_token_].
      cbn [_instances set_instances_lock]. by rewrite Hk. }
    eapply irun_cons; [done|done|].
    eapply irun_cons; [done|done|].
    eapply irun_cons; [done|done|].
    cbn [irun insert list_insert set_pc c_func c_token_]. do 2 f_equal.
    unfold register. destruct p; cbn in *; by subst.
Qed.

(** *** The callers together *)

(** X14: threads call [instance_for_function] at the same time, each with
    its own arguments, in a process reached by a sequential history. Under
    every schedule no two handles carry the same token, a caller that is
    back holds the handle registered under its token, so callers with the
    same token hold the same handle, the log, the globals and the handles
    that were there are untouched, the callers cannot deadlock and no
    schedule has more than five steps for each caller. When all callers are
    back the process satisfies the invariant of the sequential histories
    again. *)
Theorem concurrent_instance_for_function cs (g : U) args sched c :
  let p0 := exec_all tokenize cs (fresh_process g) in
  irun sched (ispawn tokenize args p0) = Some c ->
  (forall a b ha hb,
     heap (snd c) !! a = Some ha -> heap (snd c) !! b = Some hb ->
     _token ha = _token hb -> a = b)
  /\ (forall i th a,
        fst c !! i = Some th -> c_pc th = IDone a ->
        _instances (snd c) !! c_token_ th = Some a
        /\ exists h, heap (snd c) !! a = Some h /\ _token h = c_token_ th)
  /\ (forall i j thi thj a b,
        fst c !! i = Some thi -> fst c !! j = Some thj ->
        c_pc thi = IDone a -> c_pc thj = IDone b ->
        c_token_ thi = c_token_ thj -> a = b)
  /\ set_pc IAtAcquire <$> fst c = fst (ispawn tokenize args p0)
  /\ (calls (snd c) = calls p0 /\ globals (snd c) = globals p0
      /\ forall a h, heap p0 !! a = Some h -> heap (snd c) !! a = Some h)
  /\ (forallb iis_done (fst c) = false ->
      exists i c', isched_step i c = Some c')
  /\ length sched <= 5 * length args
  /\ (forallb iis_done (fst c) = true -> registry_inv tokenize (snd c)).
Proof.
  intros p0 Hrun. destruct (inv_history tokenize cs g) as [Hreg0 _].
  fold p0 in Hreg0.
  destruct (irun_inv p0 sched (ispawn tokenize args p0) c)
    as (Hmx & Hreg & Hfr & Hcs);
    [apply imutex_inv_spawn, Hreg0|by apply ireg_inv_spawn|done|done|].
  destruct Hreg as [L E H C].
  assert (Hdone : forall i th a,
            fst c !! i = Some th -> c_pc th = IDone a ->
            _instances (snd c) !! c_token_ th = Some a).
  { intros i th a Hi Hpc. destruct (C _ _ Hi) as [_ Hok]. by rewrite Hpc in Hok. }
  split_and!.
  - intros a b ha hb Ha Hb Htok.
    destruct (H a ha Ha) as [_ [Hra|(Hna & i & thi & Hi & Hpci & _)]];
      destruct (H b hb Hb) as [_ [Hrb|(Hnb & j & thj & Hj & Hpcj & _)]];
      try congruence.
    destruct c as [ts p]. cbn [fst snd] in *.
    destruct (imutex_inv_holder _ _ _ _ Hmx Hi) as [_ Hothers];
      [by rewrite Hpci|].
    destruct (decide (j = i)) as [->|Hne]; [congruence|].
    pose proof (Hothers _ _ Hj Hne) as Hh. by rewrite Hpcj in Hh.
  - intros i th a Hi Hpc. split; [by eapply Hdone|]. eapply E. by eapply Hdone.
  - intros i j thi thj a b Hi Hj Hpci Hpcj Htok.
    pose proof (Hdone _ _ _ Hi Hpci). pose proof (Hdone _ _ _ Hj Hpcj).
    congruence.
  - rewrite Hcs. unfold ispawn. cbn [fst]. rewrite <- list_fmap_compose.
    by apply list_fmap_ext.
  - apply Hfr.
  - apply Hfr.
  - apply Hfr.
  - by apply imutex_inv_progress.
  - apply irun_length in Hrun as [Hm _]. rewrite imeasure_spawn in Hm. lia.
  - intros Hall. apply ireg_inv_quiescent; [done|done|].
    intros i th Hi. rewrite forallb_forall in Hall.
    assert (Hd : iis_done th = true).
    { apply Hall, list_elem_of_In, list_elem_of_lookup. eauto. }
    unfold iis_done in Hd. by destruct (c_pc th).
Qed.

End ConcurrentRegistry.

(** ** The theorems at work on the concrete process *)

Lemma factory_runs_at_most_once_witness :
  all_successful 0 (exec_all example_tokenize example_history (fresh_process 0)) = true
  /\ invocations 0 (exec_all example_tokenize example_history (fresh_process 0)) <= 1.
Proof.
  split; [vm_compute; reflexivity|].
  apply (factory_runs_at_most_once example_tokenize example_history 0 0).
  vm_compute; reflexivity.
Defined.

(** C1 as stated fails: a factory that returns [None] never raises, yet two
    calls of [_get_value] in a row invoke it twice; each call ends in
    [AssertionError] and leaves the slot empty. *)
Lemma none_factory_runs_twice :
  let p0 := exec_all example_tokenize
              [Call_instance_for_function returns_none None] (fresh_process 0) in
  let p2 := exec_all example_tokenize [Call_get_value 0; Call_get_value 0] p0 in
  (forall g, returns_none g = (Returns PyNone, S g))
  /\ fst (_get_value 0 p0) = Exc AssertionError
  /\ invocations 0 p2 = 2
  /\ ~ invocations 0 p2 <= 1.
Proof.
  cbv zeta. split; [done|]. split; [vm_compute; reflexivity|].
  assert (H2 : invocations 0
                 (exec_all example_tokenize [Call_get_value 0; Call_get_value 0]
                    (exec_all example_tokenize
                       [Call_instance_for_function returns_none None]
                       (fresh_process 0))) = 2) by (vm_compute; reflexivity).
  rewrite H2. split; [done|lia].
Qed.

Lemma concurrent_callers_run_factory_once_witness :
  exists c,
    run 0 example_schedule (spawn 3 example_process) = Some c
    /\ forallb is_done (fst c) = true
    /\ invocations 0 (snd c) = 1
    /\ globals (snd c) = 1.
Proof.
  assert (Hh : heap example_process !! 0
               = Some (mkOncePerWorker load_model
                         "d41d8cd98f00b204e9800998ecf8427e" false PyNone))
    by (vm_compute; reflexivity).
  assert (Hd : match run 0 example_schedule (spawn 3 example_process) with
               | Some c => forallb is_done (fst c)
               | None => false
               end = true) by (vm_compute; reflexivity).
  destruct (run 0 example_schedule (spawn 3 example_process)) as [c|] eqn:Hrun;
    [|discriminate Hd].
  exists c. split; [reflexivity|]. split; [exact Hd|].
  destruct (concurrent_callers_run_factory_once (fun g : nat => g) 0 3
              example_process _ model 1 example_schedule c
              Hh eq_refl eq_refl eq_refl eq_refl eq_refl (Nat.lt_0_succ 2) Hrun)
    as (_ & _ & Hdone & _).
  destruct (Hdone Hd) as (Hinv & Hcount & _).
  split; [exact Hinv|exact Hcount].
Defined.

Lemma pickle_roundtrip_same_handle_witness :
  let p := exec_all example_tokenize example_history (fresh_process 0) in
  heap p !! 0 = Some (mkOncePerWorker load_model
                        "d41d8cd98f00b204e9800998ecf8427e" false model)
  /\ pickle_roundtrip example_tokenize 0 p = (Ok 0, p).
Proof.
  cbv zeta.
  assert (Ha : heap (exec_all example_tokenize example_history (fresh_process 0)) !! 0
               = Some (mkOncePerWorker load_model
                         "d41d8cd98f00b204e9800998ecf8427e" false model))
    by (vm_compute; reflexivity).
  split; [exact Ha|].
  exact (proj1 (pickle_roundtrip_same_handle example_tokenize example_history
                  0 0 _ Ha)).
Defined.

(** Two factories under one explicit token: the handle of the first call is
    returned to the second, with the first factory in it. *)
Lemma registry_first_writer_wins_witness :
  let p1 := snd (instance_for_function example_tokenize load_model
                   (Some "model") (fresh_process 0)) in
  instance_for_function example_tokenize load_other_model (Some "model") p1
  = (Ok 0, p1)
  /\ exists h, heap p1 !! 0 = Some h /\ _func h = load_model.
Proof.
  cbv zeta.
  destruct (registry_first_writer_wins example_tokenize [] 0 load_model
              (Some "model")) as (_ & _ & a & h1 & Hr & Ha & _ & Hnew & Hlater).
  assert (Ha0 : a = 0) by (vm_compute in Hr; congruence). subst a.
  destruct (Hlater [] load_other_model (Some "model") eq_refl) as [Hsame _].
  destruct Hnew as [Hf _]; [vm_compute; reflexivity|].
  split; [exact Hsame|]. exists h1. split; [exact Ha|exact Hf].
Defined.

Lemma get_value_retries_after_failure_witness :
  let p := snd (instance_for_function example_tokenize flaky None (fresh_process 0)) in
  let p' := snd (_get_value 0 p) in
  fst (_get_value 0 p) = Exc (UserError "connection refused")
  /\ heap p' = heap p
  /\ fst (_get_value 0 p') = Ok model
  /\ invocations 0 (snd (_get_value 0 p')) = 2.
Proof.
  cbv zeta.
  edestruct (get_value_retries_after_failure
               (snd (instance_for_function example_tokenize flaky None (fresh_process 0)))
               0 (mkOncePerWorker flaky "0cc175b9c0f1b6a831c399e269772661" false PyNone)
               (UserError "connection refused") 1)
    as (Hexc & Hheap & _ & _ & Hretry); [vm_compute; reflexivity..|].
  destruct (Hretry model 2) as (Hok & _ & Hinv); [vm_compute; reflexivity..|].
  split; [exact Hexc|]. split; [exact Hheap|]. split; [exact Hok|exact Hinv].
Defined.

Lemma getattr_reserved_raises_witness :
  "__dask_tokenize__" ∈ reserved_names
  /\ __getattr__ 0 "__dask_tokenize__" example_process
     = (Exc (AttributeError "__dask_tokenize__"), example_process).
Proof.
  assert (Hin : "__dask_tokenize__" ∈ reserved_names) by (repeat constructor).
  split; [exact Hin|]. exact (getattr_reserved_raises example_process 0 _ Hin).
Defined.

(** C7 as stated fails on the empty string: an explicit token [""] is falsy,
    so the handle is registered under the hash of the factory and nothing is
    registered under [""]. *)
Lemma empty_token_is_hashed :
  let r := instance_for_function example_tokenize load_model (Some "")
             (fresh_process 0) in
  fst r = Ok 0
  /\ _instances (snd r) !! "" = None
  /\ _instances (snd r) !! "d41d8cd98f00b204e9800998ecf8427e" = Some 0
  /\ resolve_token example_tokenize load_model (Some "") <> "".
Proof. cbv zeta. split_and!; try (vm_compute; reflexivity). by vm_compute. Qed.

Lemma explicit_token_is_registry_key_witness :
  let r := instance_for_function example_tokenize load_model (Some "model")
             (fresh_process 0) in
  _instances_lock (fresh_process 0) = false
  /\ fst r = Ok 0
  /\ _instances (snd r) !! "model" = Some 0.
Proof.
  cbv zeta. split; [reflexivity|].
  destruct (explicit_token_is_registry_key example_tokenize (fresh_process 0)
              load_model (Some "model") eq_refl) as (a & Hr & Hexplicit & _).
  destruct (Hexplicit "model" eq_refl) as [_ Hkey]; [done|].
  assert (Ha0 : a = 0) by (vm_compute in Hr; congruence). subst a.
  split; [exact Hr|exact Hkey].
Defined.

(** C8 as stated fails on an empty slot: [__dir__] of a handle that was never
    resolved is [dir(None)], which is not empty. *)
Lemma dir_of_empty_slot_is_not_empty :
  (exists h, heap example_process !! 0 = Some h /\ _value h = PyNone)
  /\ fst (__dir__ 0 example_process) = Ok NoneType_dir
  /\ fst (__dir__ 0 example_process) <> Ok [].
Proof.
  split; [eexists; split; vm_compute; reflexivity|].
  assert (Hd : fst (__dir__ 0 example_process) = Ok NoneType_dir)
    by (vm_compute; reflexivity).
  split; [exact Hd|]. rewrite Hd. discriminate.
Qed.

Lemma dir_lists_slot_witness :
  let p := exec_all example_tokenize example_history (fresh_process 0) in
  heap p !! 0 = Some (mkOncePerWorker load_model
                        "d41d8cd98f00b204e9800998ecf8427e" false model)
  /\ __dir__ 0 p = (Ok ["predict"], p).
Proof.
  cbv zeta.
  assert (Ha : heap (exec_all example_tokenize example_history (fresh_process 0)) !! 0
               = Some (mkOncePerWorker load_model
                         "d41d8cd98f00b204e9800998ecf8427e" false model))
    by (vm_compute; reflexivity).
  split; [exact Ha|].
  exact (proj1 (dir_lists_slot _ 0 _ Ha)).
Defined.

Lemma instance_for_function_only_allocates_witness :
  let r := instance_for_function example_tokenize load_model None (fresh_process 7) in
  _instances_lock (fresh_process 7) = false
  /\ calls (snd r) = []
  /\ globals (snd r) = 7
  /\ _instances_lock (snd r) = false.
Proof.
  cbv zeta. split; [reflexivity|].
  destruct (instance_for_function_only_allocates example_tokenize
              (fresh_process 7) load_model None eq_refl)
    as (Hcalls & Hglobals & Hlock & _).
  split; [exact Hcalls|]. split; [exact Hglobals|exact Hlock].
Defined.

(** Printing a handle that was never resolved shows [None] and resolves
    nothing. *)
Lemma repr_does_not_initialize_witness :
  __repr__ 0 example_process = (Ok "<OncePerWorker at 0x0 of None>", example_process).
Proof.
  destruct (repr_does_not_initialize example_process 0) as [Hs Hr].
  rewrite (surjective_pairing (__repr__ 0 example_process)), Hs, Hr.
  reflexivity.
Defined.

(** ** The further properties at work *)

Lemma get_value_reuses_value_witness :
  fst (_get_value 0 example_process) = Ok model
  /\ let p2 := exec_all example_tokenize [Call_repr 0; Call_getattr 0 "predict"]
                 (snd (_get_value 0 example_process)) in
     _get_value 0 p2 = (Ok model, p2).
Proof.
  assert (Hok : fst (_get_value 0 (exec_all example_tokenize
                   [Call_instance_for_function load_model None] (fresh_process 0)))
                = Ok model) by (vm_compute; reflexivity).
  split; [exact Hok|].
  exact (proj1 (get_value_reuses_value example_tokenize
                  [Call_instance_for_function load_model None] 0 0 model
                  [Call_repr 0; Call_getattr 0 "predict"] Hok)).
Defined.

Lemma get_value_while_lock_held_witness :
  heap example_locked !! 0
  = Some (mkOncePerWorker load_model "d41d8cd98f00b204e9800998ecf8427e" true PyNone)
  /\ _get_value 0 example_locked = (Blocked, example_locked).
Proof.
  assert (Ha : heap example_locked !! 0
               = Some (mkOncePerWorker load_model
                         "d41d8cd98f00b204e9800998ecf8427e" true PyNone))
    by (vm_compute; reflexivity).
  split; [exact Ha|].
  exact (get_value_while_lock_held example_locked 0 _ Ha eq_refl).
Defined.

Lemma get_value_none_result_asserts_witness :
  let p := snd (instance_for_function example_tokenize returns_none None
                  (fresh_process 0)) in
  fst (_get_value 0 p) = Exc AssertionError
  /\ globals (snd (_get_value 0 p)) = 1.
Proof.
  cbv zeta.
  assert (Ha : heap (snd (instance_for_function example_tokenize returns_none
                            None (fresh_process 0))) !! 0
               = Some (mkOncePerWorker returns_none
                         "6adf97f83acf6453d4a6a4b1070f3754" false PyNone))
    by (vm_compute; reflexivity).
  destruct (get_value_none_result_asserts _ 0 _ 1 Ha eq_refl eq_refl eq_refl)
    as [Heq _].
  rewrite Heq. split; reflexivity.
Defined.

Lemma getattr_forwards_to_value_witness :
  ("predict" ∉ reserved_names)
  /\ fst (__getattr__ 0 "predict" example_process)
     = Ok (PyObj "method" "<bound method Model.predict>" [])
  /\ fst (__getattr__ 0 "fit" example_process)
     = Exc (AttributeError "'Model' object has no attribute 'fit'")
  /\ heap (snd (__getattr__ 0 "fit" example_process)) !! 0
     = Some (mkOncePerWorker load_model "d41d8cd98f00b204e9800998ecf8427e"
               false model).
Proof.
  assert (Hin : forall attr, attr = "predict" \/ attr = "fit" ->
                  attr ∉ reserved_names).
  { intros attr [-> | ->] Hin; vm_compute in Hin;
      repeat (apply elem_of_cons in Hin as [Hin|Hin]; [discriminate|]);
      by apply elem_of_nil in Hin. }
  assert (Ha : heap example_process !! 0
               = Some (mkOncePerWorker load_model
                         "d41d8cd98f00b204e9800998ecf8427e" false PyNone))
    by (vm_compute; reflexivity).
  split; [apply Hin; by left|].
  destruct (getattr_forwards_to_value example_process 0 _ "predict"
              (Hin _ (or_introl eq_refl)) Ha) as [_ Hfirst].
  destruct (getattr_forwards_to_value example_process 0 _ "fit"
              (Hin _ (or_intror eq_refl)) Ha) as [_ Hmiss].
  rewrite (Hfirst model 1 eq_refl eq_refl eq_refl eq_refl).
  rewrite (Hmiss model 1 eq_refl eq_refl eq_refl eq_refl).
  split; [reflexivity|]. split; [reflexivity|]. vm_compute; reflexivity.
Defined.

Lemma distinct_tokens_distinct_handles_witness :
  let r1 := instance_for_function example_tokenize load_model (Some "a")
              (fresh_process 0) in
  let r2 := instance_for_function example_tokenize load_model (Some "b") (snd r1) in
  "a" <> "" /\ "b" <> "" /\ "a" <> "b"
  /\ fst r1 = Ok 0 /\ fst r2 = Ok 1.
Proof.
  cbv zeta. split; [done|]. split; [done|]. split; [done|].
  destruct (distinct_tokens_distinct_handles example_tokenize [] 0
              load_model load_model "a" "b")
    as (a1 & a2 & Hr1 & Hr2 & _); [done..|].
  split; vm_compute; reflexivity.
Defined.

Lemma slot_holds_last_result_witness :
  let p := exec_all example_tokenize
             [Call_instance_for_function flaky None; Call_get_value 0;
              Call_get_value 0] (fresh_process 0) in
  heap p !! 0
  = Some (mkOncePerWorker flaky "0cc175b9c0f1b6a831c399e269772661" false model)
  /\ exists pre locked,
       calls_of 0 p = (pre ++ [mkCall 0 locked (Returns model)])%list
       /\ all_failed pre = true.
Proof.
  cbv zeta.
  assert (Ha : heap (exec_all example_tokenize
                 [Call_instance_for_function flaky None; Call_get_value 0;
                  Call_get_value 0] (fresh_process 0)) !! 0
               = Some (mkOncePerWorker flaky
                         "0cc175b9c0f1b6a831c399e269772661" false model))
    by (vm_compute; reflexivity).
  split; [exact Ha|].
  exact (proj1 (slot_holds_last_result example_tokenize _ 0 0 _ Ha) eq_refl).
Defined.

Lemma unpickle_goes_through_registry_witness :
  let p := exec_all example_tokenize example_history (fresh_process 0) in
  heap p !! 0
  = Some (mkOncePerWorker load_model "d41d8cd98f00b204e9800998ecf8427e" false model)
  /\ _instances_lock failing_process = false
  /\ exists r,
       fst (__reduce__ 0 p) = Ok r
       /\ fst (unpickle example_tokenize r failing_process) = Ok 1.
Proof.
  cbv zeta.
  assert (Ha : heap (exec_all example_tokenize example_history (fresh_process 0)) !! 0
               = Some (mkOncePerWorker load_model
                         "d41d8cd98f00b204e9800998ecf8427e" false model))
    by (vm_compute; reflexivity).
  split; [exact Ha|]. split; [reflexivity|].
  destruct (unpickle_goes_through_registry example_tokenize example_history 0 0
              _ failing_process Ha eq_refl) as (r & Hr & Hu).
  exists r. split; [exact Hr|]. rewrite Hu. vm_compute; reflexivity.
Defined.

Lemma concurrent_callers_exclude_each_other_witness :
  exists c,
    run 0 [0; 1; 2; 1; 1; 1] (spawn 3 example_process) = Some c
    /\ length (fst c) = 3
    /\ exists i c', sched_step 0 i c = Some c'.
Proof.
  assert (Hh : heap example_process !! 0
               = Some (mkOncePerWorker load_model
                         "d41d8cd98f00b204e9800998ecf8427e" false PyNone))
    by (vm_compute; reflexivity).
  assert (Hd : match run 0 [0; 1; 2; 1; 1; 1] (spawn 3 example_process) with
               | Some c => forallb is_done (fst c)
               | None => true
               end = false) by (vm_compute; reflexivity).
  destruct (run 0 [0; 1; 2; 1; 1; 1] (spawn 3 example_process)) as [c|] eqn:Hrun;
    [|discriminate Hd].
  exists c. split; [reflexivity|].
  destruct (concurrent_callers_exclude_each_other 0 3 example_process _
              [0; 1; 2; 1; 1; 1] c Hh eq_refl Hrun) as (_ & Hprog & Hlen & _).
  split; [exact Hlen|exact (Hprog Hd)].
Defined.

Lemma concurrent_readers_never_wait_witness :
  exists c,
    run 0 [1; 0; 2] (spawn 3 example_resolved) = Some c
    /\ snd c = example_resolved.
Proof.
  assert (Hh : heap example_resolved !! 0
               = Some (mkOncePerWorker load_model
                         "d41d8cd98f00b204e9800998ecf8427e" false model))
    by (vm_compute; reflexivity).
  assert (Hd : match run 0 [1; 0; 2] (spawn 3 example_resolved) with
               | Some c => true
               | None => false
               end = true) by (vm_compute; reflexivity).
  destruct (run 0 [1; 0; 2] (spawn 3 example_resolved)) as [c|] eqn:Hrun;
    [|discriminate Hd].
  exists c. split; [reflexivity|].
  exact (proj1 (concurrent_readers_never_wait 0 3 example_resolved _
                  [1; 0; 2] c Hh eq_refl Hrun)).
Defined.

Lemma concurrent_callers_of_raising_factory_witness :
  exists c,
    run 0 failing_schedule (spawn 2 failing_process) = Some c
    /\ forallb is_done (fst c) = true
    /\ invocations 0 (snd c) = 2.
Proof.
  assert (Hh : heap failing_process !! 0
               = Some (mkOncePerWorker always_fails
                         "0cc175b9c0f1b6a831c399e269772661" false PyNone))
    by (vm_compute; reflexivity).
  assert (Hd : match run 0 failing_schedule (spawn 2 failing_process) with
               | Some c => forallb is_done (fst c)
               | None => false
               end = true) by (vm_compute; reflexivity).
  destruct (run 0 failing_schedule (spawn 2 failing_process)) as [c|] eqn:Hrun;
    [|discriminate Hd].
  exists c. split; [reflexivity|]. split; [exact Hd|].
  destruct (concurrent_callers_of_raising_factory 0 2 failing_process _
              failing_schedule c Hh eq_refl eq_refl
              (fun g => ex_intro _ _ (ex_intro _ _ eq_refl)) Hrun)
    as (_ & _ & Hall).
  exact (proj1 (Hall Hd)).
Defined.

Lemma concurrent_instance_for_function_witness :
  exists c,
    irun registry_schedule (ispawn example_tokenize example_args (fresh_process 0))
    = Some c
    /\ (c_pc <$> fst c) = [IDone 0; IDone 0; IDone 1]
    /\ calls (snd c) = [].
Proof.
  assert (Hd : match irun registry_schedule
                       (ispawn example_tokenize example_args (fresh_process 0)) with
               | Some c => Some (c_pc <$> fst c)
               | None => None
               end = Some [IDone 0; IDone 0; IDone 1]) by (vm_compute; reflexivity).
  destruct (irun registry_schedule
              (ispawn example_tokenize example_args (fresh_process 0)))
    as [c|] eqn:Hrun; [|discriminate Hd].
  exists c. split; [reflexivity|]. split; [congruence|].
  destruct (concurrent_instance_for_function example_tokenize [] 0 example_args
              registry_schedule c Hrun) as (_ & _ & _ & _ & Hcalls & _).
  exact (proj1 Hcalls).
Defined.

(** ** Where the claims on concurrent callers and on retries stop *)

(** C2 as stated fails: [returns_none] increments the shared counter and
    never raises, yet with two concurrent callers it is invoked once by each
    of them; both come back with [AssertionError] and the counter is two
    above its start. *)
Lemma none_factory_runs_once_per_thread :
  (forall counter, returns_none counter = (Returns PyNone, S counter))
  /\ globals none_process = 0
  /\ exists c,
       run 0 none_schedule (spawn 2 none_process) = Some c
       /\ fst c = [Done (Raises AssertionError); Done (Raises AssertionError)]
       /\ invocations 0 (snd c) = 2
       /\ globals (snd c) = 2
       /\ globals (snd c) <> S (globals none_process).
Proof.
  split; [done|]. split; [reflexivity|].
  assert (Hts : match run 0 none_schedule (spawn 2 none_process) with
                | Some c => Some (fst c, invocations 0 (snd c), globals (snd c))
                | None => None
                end
                = Some ([Done (Raises AssertionError); Done (Raises AssertionError)],
                        2, 2)) by (vm_compute; reflexivity).
  destruct (run 0 none_schedule (spawn 2 none_process)) as [c|]; [|discriminate Hts].
  injection Hts as Hthreads Hinv Hglobals.
  exists c. split; [reflexivity|]. split; [exact Hthreads|].
  split; [exact Hinv|]. split; [exact Hglobals|].
  rewrite Hglobals. discriminate.
Qed.

(** C5 as stated fails in its second half: [fails_then_none] raises on its
    first invocation and returns, without raising, on its second; the second
    call of [_get_value] does run it again, but ends in [AssertionError] and
    the slot is still empty. *)
Lemma retry_with_none_leaves_slot_empty :
  let p := snd (instance_for_function example_tokenize fails_then_none None
                  (fresh_process 0)) in
  let p' := snd (_get_value 0 p) in
  let p'' := snd (_get_value 0 p') in
  fails_then_none 0 = (Raises (UserError "connection refused"), 1)
  /\ fails_then_none 1 = (Returns PyNone, 2)
  /\ fst (_get_value 0 p) = Exc (UserError "connection refused")
  /\ fst (_get_value 0 p') = Exc AssertionError
  /\ invocations 0 p'' = 2
  /\ heap p'' !! 0
     = Some (mkOncePerWorker fails_then_none
               "0cc175b9c0f1b6a831c399e269772661" false PyNone).
Proof. cbv zeta. split_and!; vm_compute; reflexivity. Qed.
